(** * Corellian Spike Sabacc: the card game of [corellian_spike.py]

    A shallow embedding of the game logic of [sabacc_droid/corellian_spike.py]:
    the [Player] hand operations, deck generation, the hand evaluator
    [evaluate_hand], and the turn and round sequencing of [CorelliaGameView]
    together with the button handlers of [TurnView] and [CardSelectView].

    Python integers are [Z]; Python lists are [list] in the order Python
    keeps them (so [deck.pop()] takes the LAST element and [cards.append]
    adds at the end); dictionaries are [gmap]; [set(cards)] is a [gset].
    Discord messages, embeds and images are not modelled: a handler returns
    an [outcome] that records which of its control paths ran. *)

From stdpp Require Import gmap list sorting.
From Stdlib Require Import ZArith Lia.

Local Open Scope Z_scope.

(** ** Python primitives *)

(** The exceptions the modelled code can raise. *)
Inductive exn := ValueError | IndexError | ZeroDivisionError.

(** A computation that returns a value or raises. *)
Inductive result (A : Type) :=
  | Ok (a : A)
  | Raise (e : exn).
Arguments Ok {A} a.
Arguments Raise {A} e.

Global Instance result_ret : MRet result := fun A a => Ok a.
Global Instance result_bind : MBind result := fun A B f m =>
  match m with Ok a => f a | Raise e => Raise e end.

Global Instance exn_eq_dec : EqDecision exn.
Proof. solve_decision. Defined.

(** [sum(l)] *)
Definition sum (l : list Z) : Z := foldl Z.add 0 l.

(** [min(l)]: raises [ValueError] on an empty sequence. *)
Definition py_min (l : list Z) : result Z :=
  match l with
  | [] => Raise ValueError
  | x :: l' => Ok (foldl Z.min x l')
  end.

(** [max(l)]: raises [ValueError] on an empty sequence. *)
Definition py_max (l : list Z) : result Z :=
  match l with
  | [] => Raise ValueError
  | x :: l' => Ok (foldl Z.max x l')
  end.

(** [sorted(l)] on integers. *)
Definition sorted (l : list Z) : list Z := merge_sort Z.le l.

(** [x in l] *)
Definition py_in (x : Z) (l : list Z) : bool := bool_decide (x ∈ l).

(** [l.remove(x)]: deletes the first occurrence, [ValueError] if absent. *)
Fixpoint list_remove (x : Z) (l : list Z) : result (list Z) :=
  match l with
  | [] => Raise ValueError
  | y :: l' => if decide (x = y) then Ok l'
               else l'' ← list_remove x l'; Ok (y :: l'')
  end.

(** [l.pop()]: takes the last element, [IndexError] on an empty list. *)
Definition list_pop {A} (l : list A) : result (A * list A) :=
  match reverse l with
  | [] => Raise IndexError
  | x :: r => Ok (x, reverse r)
  end.

(** [l.pop(i)] for an index [i >= 0]: [IndexError] when out of range. *)
Definition list_pop_at {A} (i : nat) (l : list A) : result (A * list A) :=
  match l !! i with
  | Some x => Ok (x, delete i l)
  | None => Raise IndexError
  end.

(** [x[i], x[j] = x[j], x[i]] *)
Definition swap {A} (i j : nat) (x : list A) : list A :=
  match x !! i, x !! j with
  | Some a, Some b => <[j:=a]> (<[i:=b]> x)
  | _, _ => x
  end.

(** [random.shuffle(x)] as CPython implements it:
    [for i in reversed(range(1, len(x))): j = randbelow(i + 1); swap i j].
    The random source is the list [rng]; its next number, reduced modulo
    [i + 1], is the result of [randbelow(i + 1)], so every outcome of the
    library function is the image of some [rng]. *)
Fixpoint shuffle_from {A} (rng : list nat) (i : nat) (x : list A) : list A :=
  match i with
  | O => x
  | S i' =>
      let j := (hd 0 rng `mod` S i)%nat in
      shuffle_from (tl rng) i' (swap i j x)
  end.

Definition shuffle {A} (rng : list nat) (x : list A) : list A :=
  shuffle_from rng (length x - 1) x.

(** [float('-inf')] next to the integers: the entries of a ranking key. *)
Inductive num :=
  | NegInf
  | Int (z : Z).

Global Instance num_eq_dec : EqDecision num.
Proof. solve_decision. Defined.

Definition num_ltb (a b : num) : bool :=
  match a, b with
  | NegInf, NegInf => false
  | NegInf, Int _ => true
  | Int _, NegInf => false
  | Int x, Int y => bool_decide (x < y)
  end.

(** Python's [<] on tuples: the first position where the tuples differ
    decides; a proper prefix is smaller. *)
Fixpoint key_ltb (k1 k2 : list num) : bool :=
  match k1, k2 with
  | [], [] => false
  | [], _ :: _ => true
  | _ :: _, [] => false
  | a :: k1', b :: k2' =>
      if decide (a = b) then key_ltb k1' k2' else num_ltb a b
  end.

(** ** class Player *)

(** [user] is an opaque Discord handle; the showdown of a solo game adds a
    player whose user is an object of the ad-hoc class [AIUser]. *)
Inductive user_handle :=
  | Human (id : nat)
  | AIUser.

Global Instance user_handle_eq_dec : EqDecision user_handle.
Proof. solve_decision. Defined.

Record Player := mkPlayer {
  user : user_handle;
  cards : list Z;
}.

Global Instance Player_eq_dec : EqDecision Player.
Proof. solve_decision. Defined.

Definition Player_init (u : user_handle) : Player :=
  {| user := u; cards := [] |}.

(** [Player.draw_card(deck)]. The player and the deck are both mutated, so
    both are returned; the exception is raised before any mutation. *)
Definition draw_card (self : Player) (deck : list Z)
  : result (Player * list Z) :=
  match deck with
  | [] => Raise ValueError
  | _ =>
      '(card, deck') ← list_pop deck;
      Ok ({| user := self.(user); cards := self.(cards) ++ [card] |}, deck')
  end.

(** [Player.discard_card(card)]: the returned flag and the player after. *)
Definition discard_card (self : Player) (card : Z) : result (bool * Player) :=
  if bool_decide (length self.(cards) ≤ 1)%nat then Ok (false, self)
  else if py_in card self.(cards) then
    cards' ← list_remove card self.(cards);
    Ok (true, {| user := self.(user); cards := cards' |})
  else Ok (false, self).

(** [Player.replace_card(card, deck)] *)
Definition replace_card (self : Player) (card : Z) (deck : list Z)
  : result (bool * Player * list Z) :=
  if py_in card self.(cards) && bool_decide (deck ≠ []) then
    cards' ← list_remove card self.(cards);
    '(self', deck') ← draw_card {| user := self.(user); cards := cards' |} deck;
    Ok (true, self', deck')
  else Ok (false, self, deck).

(** [Player.get_total()] *)
Definition get_total (self : Player) : Z := sum self.(cards).

(** ** Deck *)

(** The deck before it is shuffled: [i for i in range(1, 11) for _ in
    range(3)], then the negatives built the same way, then two zeros. *)
Definition unshuffled_deck : list Z :=
  (i ← seqZ 1 10; replicate 3 i) ++
  (i ← seqZ 1 10; replicate 3 (- i)) ++
  [0; 0].

(** [CorelliaGameView.generate_deck()] *)
Definition generate_deck (rng : list nat) : list Z :=
  shuffle rng unshuffled_deck.

(** The composition the specification gives the deck: three copies of each
    of +1..+10 and -1..-10, two copies of 0, no other card. *)
Definition copies_in_deck (v : Z) : nat :=
  if decide (1 ≤ Z.abs v ≤ 10) then 3%nat
  else if decide (v = 0) then 2%nat else 0%nat.

(** A draw by the [i]-th of several players sharing one deck; a draw that
    raises leaves everything as it was. *)
Definition draw_by (st : list Player * list Z) (i : nat)
  : list Player * list Z :=
  match st.1 !! i with
  | Some p =>
      match draw_card p st.2 with
      | Ok (p', deck') => (<[i:=p']> st.1, deck')
      | Raise _ => st
      end
  | None => st
  end.

(** All cards held by the players, in player order. *)
Definition cards_held (ps : list Player) : list Z :=
  p ← ps; p.(cards).

(** ** Hand evaluation *)

Inductive hand_type :=
  | PureSabacc
  | FullSabacc
  | YeeHaa
  | RuleOfTwo
  | SabaccPair
  | Sabacc
  | Nulrhek.

Global Instance hand_type_eq_dec : EqDecision hand_type.
Proof. solve_decision. Defined.

(** One round of [d[k] = d.get(k, 0) + 1]. *)
Definition count_up (d : gmap Z nat) (k : Z) : gmap Z nat :=
  <[k := (default 0 (d !! k) + 1)%nat]> d.

(** [-max(positive_cards) if positive_cards else float('-inf')] *)
Definition neg_max_or_neg_inf (positive_cards : list Z) : result num :=
  match positive_cards with
  | [] => Ok NegInf
  | _ => m ← py_max positive_cards; Ok (Int (- m))
  end.

(** [CorelliaGameView.evaluate_hand(player)]. The returned triple is
    [((hand_rank, *tie_breakers), hand_type, total)]. *)
Definition evaluate_hand (player : Player)
  : result (list num * hand_type * Z) :=
  let cards := player.(cards) in
  let total := sum cards in
  (* Count occurrences of each card value *)
  let counts := foldl count_up ∅ cards in
  let positive_cards := filter (λ c, 0 < c) cards in
  let zeros := default 0%nat (counts !! 0) in
  (* Create counts of absolute card values *)
  let abs_counts := foldl (λ d card, count_up d (Z.abs card)) ∅ cards in
  '(hand_type, hand_rank, tie_breakers) ←
    (if bool_decide (total = 0) then
       if bool_decide (zeros = 2%nat) && bool_decide (length cards = 2%nat)
       then Ok (PureSabacc, 1, [])
       else if bool_decide (sorted cards = [-10; -10; 0; 10; 10])
       then Ok (FullSabacc, 2, [])
       else if bool_decide (zeros = 1%nat) &&
               existsb (λ '(value, count), bool_decide (2 ≤ count)%nat)
                 (filter (λ vc, vc.1 ≠ 0) (map_to_list abs_counts))
       then
         m ← py_min (Z.abs <$> filter (λ c, c ≠ 0) cards);
         Ok (YeeHaa, 3, [Int m])
       else if bool_decide
                 (2 ≤ length (filter (λ count, 2 ≤ count)%nat
                                (snd <$> map_to_list abs_counts)))%nat
       then
         m ← py_min (Z.abs <$> cards);
         Ok (RuleOfTwo, 4, [Int m])
       else if existsb
                 (λ value, bool_decide (1 ≤ default 0 (counts !! value))%nat &&
                           bool_decide (1 ≤ default 0 (counts !! (- value)))%nat)
                 (filter (λ value, 0 < value)
                    (elements (list_to_set cards : gset Z)))
       then
         m ← py_min (Z.abs <$> cards);
         Ok (SabaccPair, 5, [Int m])
       else
         m ← py_min (Z.abs <$> cards);
         x ← neg_max_or_neg_inf positive_cards;
         Ok (Sabacc, 6,
             [Int m; Int (- Z.of_nat (length cards));
              Int (- sum positive_cards); x])
     else
       x ← neg_max_or_neg_inf positive_cards;
       Ok (Nulrhek, 10,
           [Int (Z.abs total); Int (if bool_decide (0 < total) then 0 else 1);
            Int (- Z.of_nat (length cards)); Int (- sum positive_cards); x]));
  Ok (Int hand_rank :: tie_breakers, hand_type, total).

(** The comparison key of an evaluation: [(hand_rank, *tie_breakers)]. *)
Definition eval_key (e : list num * hand_type * Z) : list num := e.1.1.

(** ** The ranking table of the specification

    The rows of the table in the order of their rank, each with its
    condition as the specification words it, over the card list alone. *)

(** How many cards have the value [v]; how many have the absolute value [a]. *)
Definition occurrences (v : Z) (cards : list Z) : nat :=
  length (filter (λ c, c = v) cards).
Definition abs_occurrences (a : Z) (cards : list Z) : nat :=
  length (filter (λ c, Z.abs c = a) cards).

(** The condition of a row of the table. *)
Definition row_condition (row : hand_type) (cards : list Z) : Prop :=
  match row with
  | PureSabacc => (* exactly two cards, both value 0 *)
      length cards = 2%nat ∧ Forall (λ c, c = 0) cards
  | FullSabacc => (* hand multiset == {+10, +10, -10, -10, 0} *)
      cards ≡ₚ [10; 10; -10; -10; 0]
  | YeeHaa => (* exactly one 0 and some nonzero absolute value twice *)
      occurrences 0 cards = 1%nat ∧
      Exists (λ a, a ≠ 0 ∧ (2 ≤ abs_occurrences a cards)%nat) (Z.abs <$> cards)
  | RuleOfTwo => (* two distinct absolute values, each at least twice *)
      (2 ≤ length (remove_dups
                     (filter (λ a, (2 ≤ abs_occurrences a cards)%nat)
                        (Z.abs <$> cards))))%nat
  | SabaccPair => (* some positive v with both +v and -v present *)
      Exists (λ v, 0 < v ∧ - v ∈ cards) cards
  | Sabacc => (* none of the above, but sum is 0 *)
      True
  | Nulrhek => (* nonzero total; not a row for a zero total *)
      False
  end.

Global Instance row_condition_dec row cards : Decision (row_condition row cards).
Proof. destruct row; simpl; apply _. Defined.

(** The rank column of the table. *)
Definition row_rank (row : hand_type) : Z :=
  match row with
  | PureSabacc => 1
  | FullSabacc => 2
  | YeeHaa => 3
  | RuleOfTwo => 4
  | SabaccPair => 5
  | Sabacc => 6
  | Nulrhek => 10
  end.

(** The rows for a zero total, best rank first. *)
Definition zero_total_rows : list hand_type :=
  [PureSabacc; FullSabacc; YeeHaa; RuleOfTwo; SabaccPair; Sabacc].

(** The highest-priority row whose condition the cards meet. *)
Definition highest_priority_row (cards : list Z) : option hand_type :=
  head (filter (λ row, row_condition row cards) zero_total_rows).

(** ** class CorelliaGameView *)

(** The attributes of the view that the game logic reads or writes.
    [total_rounds], [rounds_completed] and [first_turn] are first assigned
    when the game starts; before that they hold placeholders here. *)
Record CorelliaGameView := mkGame {
  players : list Player;
  game_started : bool;
  current_player_index : Z;
  deck : list Z;
  rounds : Z;
  num_cards : Z;
  solo_game : bool;
  total_rounds : Z;
  rounds_completed : Z;
  first_turn : bool;
}.

Definition set_players (v : list Player) (g : CorelliaGameView) :=
  mkGame v g.(game_started) g.(current_player_index) g.(deck) g.(rounds)
    g.(num_cards) g.(solo_game) g.(total_rounds) g.(rounds_completed)
    g.(first_turn).
Definition set_game_started (v : bool) (g : CorelliaGameView) :=
  mkGame g.(players) v g.(current_player_index) g.(deck) g.(rounds)
    g.(num_cards) g.(solo_game) g.(total_rounds) g.(rounds_completed)
    g.(first_turn).
Definition set_current_player_index (v : Z) (g : CorelliaGameView) :=
  mkGame g.(players) g.(game_started) v g.(deck) g.(rounds)
    g.(num_cards) g.(solo_game) g.(total_rounds) g.(rounds_completed)
    g.(first_turn).
Definition set_deck (v : list Z) (g : CorelliaGameView) :=
  mkGame g.(players) g.(game_started) g.(current_player_index) v g.(rounds)
    g.(num_cards) g.(solo_game) g.(total_rounds) g.(rounds_completed)
    g.(first_turn).
Definition set_solo_game (v : bool) (g : CorelliaGameView) :=
  mkGame g.(players) g.(game_started) g.(current_player_index) g.(deck)
    g.(rounds) g.(num_cards) v g.(total_rounds) g.(rounds_completed)
    g.(first_turn).
Definition set_total_rounds (v : Z) (g : CorelliaGameView) :=
  mkGame g.(players) g.(game_started) g.(current_player_index) g.(deck)
    g.(rounds) g.(num_cards) g.(solo_game) v g.(rounds_completed)
    g.(first_turn).
Definition set_rounds_completed (v : Z) (g : CorelliaGameView) :=
  mkGame g.(players) g.(game_started) g.(current_player_index) g.(deck)
    g.(rounds) g.(num_cards) g.(solo_game) g.(total_rounds) v
    g.(first_turn).
Definition set_first_turn (v : bool) (g : CorelliaGameView) :=
  mkGame g.(players) g.(game_started) g.(current_player_index) g.(deck)
    g.(rounds) g.(num_cards) g.(solo_game) g.(total_rounds)
    g.(rounds_completed) v.

(** [CorelliaGameView.__init__(rounds, num_cards)] *)
Definition CorelliaGameView_init (rounds num_cards : Z) : CorelliaGameView :=
  {| players := []; game_started := false; current_player_index := -1;
     deck := []; rounds := rounds; num_cards := num_cards;
     solo_game := false;
     total_rounds := 0; rounds_completed := 0; first_turn := false |}.

(** An entry of [evaluated_hands]: [(hand_value, player, hand_type, total)]. *)
Definition evaluated := (list num * Player * hand_type * Z)%type.

(** What the game-over message reports. *)
Inductive showdown :=
  | NobodyWon
  | FinalHands (evaluated_hands winners : list evaluated).

(** Which path a handler took: it announced the turn of
    [players[current_player_index]] ([update_game_embed]), it sent the
    game-over message ([end_game]), it only refreshed the lobby, it only
    answered with an ephemeral refusal, or an exception left it. State
    written before an exception stays written, so every handler also
    returns the view. *)
Inductive outcome :=
  | TurnStarts
  | GameOver (s : showdown)
  | LobbyUpdated
  | Refused
  | Raised (e : exn).

(** [list.sort(key=...)] is stable: an entry goes behind those that are not
    larger. [insert_by_key] places an earlier entry into the sorted rest. *)
Fixpoint insert_by_key (x : evaluated) (l : list evaluated) : list evaluated :=
  match l with
  | [] => [x]
  | y :: l' => if key_ltb y.1.1.1 x.1.1.1 then y :: insert_by_key x l'
               else x :: l
  end.
Definition sort_by_key (l : list evaluated) : list evaluated :=
  foldr insert_by_key [] l.

(** The evaluation loop of [end_game]. *)
Definition evaluate_all (ps : list Player) : result (list evaluated) :=
  mapM (λ player, '(hand_value, hand_type, total) ← evaluate_hand player;
                  Ok (hand_value, player, hand_type, total)) ps.

(** [CorelliaGameView.end_game()] *)
Definition end_game (self : CorelliaGameView) : outcome * CorelliaGameView :=
  let lando_added :=
    if self.(solo_game) then
      (* Add Lando Calrissian AI to the game *)
      match draw_card (Player_init AIUser) self.(deck) with
      | Raise e => inl (e, self)
      | Ok (lando, deck1) =>
          match draw_card lando deck1 with
          | Raise e => inl (e, set_deck deck1 self)
          | Ok (lando, deck2) =>
              inr (set_players (self.(players) ++ [lando]) (set_deck deck2 self))
          end
      end
    else inr self in
  match lando_added with
  | inl (e, self) => (Raised e, self)
  | inr self =>
      if bool_decide (self.(players) = []) then (GameOver NobodyWon, self)
      else
        match evaluate_all self.(players) with
        | Raise e => (Raised e, self)
        | Ok evaluated_hands =>
            let evaluated_hands := sort_by_key evaluated_hands in
            match evaluated_hands with
            | [] => (Raised IndexError, self)
            | eh0 :: _ =>
                let best_hand_value := eh0.1.1.1 in
                let winners :=
                  filter (λ eh : evaluated, eh.1.1.1 = best_hand_value)
                    evaluated_hands in
                (GameOver (FinalHands evaluated_hands winners), self)
            end
        end
  end.

(** [CorelliaGameView.proceed_to_next_player()] *)
Definition proceed_to_next_player (self : CorelliaGameView)
  : outcome * CorelliaGameView :=
  if bool_decide (length self.(players) = 0%nat)
  then (Raised ZeroDivisionError, self)
  else
    let self := set_current_player_index
                  ((self.(current_player_index) + 1)
                     `mod` Z.of_nat (length self.(players))) self in
    let '(self, showdown_due) :=
      if bool_decide (self.(current_player_index) = 0) && negb self.(first_turn)
      then
        let self := set_rounds_completed (self.(rounds_completed) + 1) self in
        (self, bool_decide (self.(rounds_completed) > self.(total_rounds)))
      else (self, false) in
    if showdown_due then end_game self
    else
      (* update_game_embed *)
      (TurnStarts, if self.(first_turn) then set_first_turn false self else self).

(** *** The lobby buttons *)

Definition user_ids (ps : list Player) : list user_handle := user <$> ps.

(** [play_game_button]: the user joins. *)
Definition play_game_button (u : user_handle) (self : CorelliaGameView)
  : outcome * CorelliaGameView :=
  if self.(game_started) then (Refused, self)
  else if bool_decide (u ∈ user_ids self.(players)) then (Refused, self)
  else if bool_decide (8 ≤ length self.(players))%nat then (Refused, self)
  else (LobbyUpdated, set_players (self.(players) ++ [Player_init u]) self).

(** [for _ in range(n): player.draw_card(deck)]; the exception, if any,
    with the player and deck as they are when it is raised. *)
Fixpoint draw_cards (n : nat) (player : Player) (deck : list Z)
  : option exn * Player * list Z :=
  match n with
  | O => (None, player, deck)
  | S n' =>
      match draw_card player deck with
      | Raise e => (Some e, player, deck)
      | Ok (player', deck') => draw_cards n' player' deck'
      end
  end.

(** [for player in players: for _ in range(n): player.draw_card(deck)] *)
Fixpoint deal (n : nat) (ps : list Player) (deck : list Z)
  : option exn * list Player * list Z :=
  match ps with
  | [] => (None, [], deck)
  | player :: ps' =>
      match draw_cards n player deck with
      | (Some e, player', deck') => (Some e, player' :: ps', deck')
      | (None, player', deck') =>
          let '(e, ps'', deck'') := deal n ps' deck' in
          (e, player' :: ps'', deck'')
      end
  end.

(** [start_game_button], pressed by [u]; [rng_deck] and [rng_players] feed
    the two calls of [random.shuffle]. *)
Definition start_game_button (u : user_handle) (rng_deck rng_players : list nat)
    (self : CorelliaGameView) : outcome * CorelliaGameView :=
  if self.(game_started) then (Refused, self)
  else if negb (bool_decide (u ∈ user_ids self.(players))) then (Refused, self)
  else if bool_decide (1 ≤ length self.(players))%nat then
    let self := set_game_started true self in
    (* Initialize the game *)
    let self := set_deck (generate_deck rng_deck) self in
    let self := set_players (shuffle rng_players self.(players)) self in
    (* Deal initial cards *)
    let '(e, ps, deck') :=
      deal (Z.to_nat self.(num_cards)) self.(players) self.(deck) in
    let self := set_deck deck' (set_players ps self) in
    match e with
    | Some e => (Raised e, self)
    | None =>
        (* Initialize round counters *)
        let self := set_total_rounds self.(rounds) self in
        let self := set_rounds_completed 1 self in
        let self := set_first_turn true self in
        (* Start the first turn *)
        match proceed_to_next_player self with
        | (Raised e, self) => (Raised e, self)
        | (o, self) =>
            (o, if bool_decide (length self.(players) = 1%nat)
                then set_solo_game true self else self)
        end
    end
  else (Refused, self).

(** *** The turn buttons

    [PlayTurnButton] opens a [TurnView] for
    [players[current_player_index]]; the handlers below are the buttons of
    that view and of the [CardSelectView] it opens, applied to this player. *)

Definition current_player (self : CorelliaGameView) : option Player :=
  if bool_decide (0 ≤ self.(current_player_index))
  then self.(players) !! Z.to_nat self.(current_player_index)
  else None.

(** Write back the mutated hand of the player whose turn it is. *)
Definition set_current_player (p : Player) (self : CorelliaGameView) :=
  set_players (<[Z.to_nat self.(current_player_index) := p]> self.(players)) self.

(** [TurnView.draw_card_button] *)
Definition draw_card_button (self : CorelliaGameView)
  : outcome * CorelliaGameView :=
  match current_player self with
  | None => (Raised IndexError, self)
  | Some player =>
      match draw_card player self.(deck) with
      | Raise e => (Raised e, self)
      | Ok (player', deck') =>
          proceed_to_next_player (set_deck deck' (set_current_player player' self))
      end
  end.

(** [TurnView.discard_card_button], then the button of the card at
    [card_index] in the [CardSelectView] with [action='discard']. *)
Definition discard_select (card_index : nat) (self : CorelliaGameView)
  : outcome * CorelliaGameView :=
  match current_player self with
  | None => (Raised IndexError, self)
  | Some player =>
      (* discard_card_button *)
      if bool_decide (length player.(cards) ≤ 1)%nat then (Refused, self)
      else
        (* make_callback(card, idx).callback *)
        if bool_decide (length player.(cards) ≤ 1)%nat then (Refused, self)
        else
          match list_pop_at card_index player.(cards) with
          | Raise e => (Raised e, self)
          | Ok (_, cards') =>
              proceed_to_next_player
                (set_current_player (mkPlayer player.(user) cards') self)
          end
  end.

(** [TurnView.replace_card_button], then the button of the card at
    [card_index] in the [CardSelectView] with [action='replace']. *)
Definition replace_select (card_index : nat) (self : CorelliaGameView)
  : outcome * CorelliaGameView :=
  match current_player self with
  | None => (Raised IndexError, self)
  | Some player =>
      match list_pop_at card_index player.(cards) with
      | Raise e => (Raised e, self)
      | Ok (_, cards') =>
          let player := mkPlayer player.(user) cards' in
          let self := set_current_player player self in
          match draw_card player self.(deck) with
          | Raise e => (Raised e, self)
          | Ok (player', deck') =>
              proceed_to_next_player
                (set_deck deck' (set_current_player player' self))
          end
      end
  end.

(** [TurnView.stand_button] *)
Definition stand_button (self : CorelliaGameView)
  : outcome * CorelliaGameView :=
  match current_player self with
  | None => (Raised IndexError, self)
  | Some _ => proceed_to_next_player self
  end.

(** [TurnView.junk_button]: [players.remove(self.player)] takes out the
    player object of this view, which sits at [current_player_index]. *)
Definition junk_button (self : CorelliaGameView)
  : outcome * CorelliaGameView :=
  match current_player self with
  | None => (Raised IndexError, self)
  | Some _ =>
      (* Remove the player from the game *)
      let self :=
        set_players (delete (Z.to_nat self.(current_player_index)) self.(players))
          self in
      (* Check if the game needs to end *)
      if bool_decide (length self.(players) < 2)%nat then end_game self
      else proceed_to_next_player self
  end.

(** [TurnView.on_timeout] and [CardSelectView.on_timeout]; an exception is
    caught and logged there, which [Raised] still reports. *)
Definition on_timeout (self : CorelliaGameView)
  : outcome * CorelliaGameView :=
  match current_player self with
  | None => (Raised IndexError, self)
  | Some _ => proceed_to_next_player self
  end.

(** What the player whose turn it is can do with the views of the turn. *)
Inductive action :=
  | Draw
  | Discard (card_index : nat)
  | Replace (card_index : nat)
  | Stand
  | Junk
  | Timeout.

Global Instance action_eq_dec : EqDecision action.
Proof. solve_decision. Defined.

Definition play (a : action) (self : CorelliaGameView)
  : outcome * CorelliaGameView :=
  match a with
  | Draw => draw_card_button self
  | Discard i => discard_select i self
  | Replace i => replace_select i self
  | Stand => stand_button self
  | Junk => junk_button self
  | Timeout => on_timeout self
  end.

Definition is_game_over (o : outcome) : bool :=
  match o with GameOver _ => true | _ => false end.
Definition is_raised (o : outcome) : bool :=
  match o with Raised _ => true | _ => false end.
(** A turn is completed when its handler went on to
    [proceed_to_next_player] or [end_game] and that call returned. *)
Definition is_turn_completed (o : outcome) : bool :=
  match o with TurnStarts | GameOver _ => true | _ => false end.

(** A sequence of actions from a state of a started game, up to the
    game-over message: the outcomes in order, and the view at the end. *)
Fixpoint run (acts : list action) (self : CorelliaGameView)
  : list outcome * CorelliaGameView :=
  match acts with
  | [] => ([], self)
  | a :: acts' =>
      let '(o, self') := play a self in
      if is_game_over o then ([o], self')
      else let '(os, self'') := run acts' self' in (o :: os, self'')
  end.

(** The same without an end. [end_game] sends its message with a new view
    and leaves the last turn message with its Play Turn button as it is,
    so the buttons can still be pressed after the game-over message. *)
Fixpoint play_all (acts : list action) (self : CorelliaGameView)
  : list outcome * CorelliaGameView :=
  match acts with
  | [] => ([], self)
  | a :: acts' =>
      let '(o, self') := play a self in
      let '(os, self'') := play_all acts' self' in (o :: os, self'')
  end.

(** A lobby that the users [us] joined in this order. *)
Definition lobby (rounds num_cards : Z) (us : list user_handle)
  : CorelliaGameView :=
  foldl (λ g u, (play_game_button u g).2) (CorelliaGameView_init rounds num_cards) us.

(** The number of completed turns among the outcomes of a run. *)
Definition turns_completed (os : list outcome) : nat :=
  length (filter (λ o, is_turn_completed o = true) os).

(** Two views agree on everything that orders the turns: the users of
    the players in their order, the turn index, the round counters and the
    flags. *)
Definition same_turn_state (g g' : CorelliaGameView) : Prop :=
  user_ids g'.(players) = user_ids g.(players) ∧
  g'.(current_player_index) = g.(current_player_index) ∧
  g'.(rounds_completed) = g.(rounds_completed) ∧
  g'.(total_rounds) = g.(total_rounds) ∧
  g'.(first_turn) = g.(first_turn) ∧
  g'.(solo_game) = g.(solo_game) ∧
  g'.(game_started) = g.(game_started).

(** The turn index that [proceed_to_next_player] moves to, and whether it
    increments [rounds_completed] on the way. *)
Definition next_index (g : CorelliaGameView) : Z :=
  (g.(current_player_index) + 1) `mod` Z.of_nat (length g.(players)).
Definition round_wraps (g : CorelliaGameView) : bool :=
  bool_decide (next_index g = 0) && negb g.(first_turn).

(** Between two turns of a started game of [n] players over [R] rounds
    that is not a solo game. *)
Definition in_rounds (n : nat) (R : Z) (g : CorelliaGameView) : Prop :=
  length g.(players) = n ∧
  g.(total_rounds) = R ∧
  g.(solo_game) = false ∧
  g.(first_turn) = false ∧
  0 ≤ g.(current_player_index) < Z.of_nat n ∧
  1 ≤ g.(rounds_completed) ≤ R.

(** The turns completed so far, read off the counters: full rounds, plus
    the turns of the current round. *)
Definition turns_before (g : CorelliaGameView) : Z :=
  Z.of_nat (length g.(players)) * (g.(rounds_completed) - 1)
  + g.(current_player_index).

(** A started game that is not a solo game, with the users [us] playing
    in this order and the turn index on one of them. *)
Definition in_game (us : list user_handle) (g : CorelliaGameView) : Prop :=
  user_ids g.(players) = us ∧
  g.(solo_game) = false ∧
  0 ≤ g.(current_player_index) < Z.of_nat (length us).

(** *** The lobby, continued *)

(** [reset_lobby]: the attributes it writes. *)
Definition reset_lobby (self : CorelliaGameView) : CorelliaGameView :=
  set_current_player_index (-1) (set_players [] (set_game_started false self)).

(** [update_lobby_embed(interaction)]: with no player left it resets the
    lobby; otherwise it only redraws the message. The lobby message
    [self.message] is the one that the command which posted the view has
    stored there. *)
Definition update_lobby_embed (self : CorelliaGameView) : CorelliaGameView :=
  if bool_decide (length self.(players) = 0%nat) then reset_lobby self
  else self.

(** [leave_game_button]: [next(...)] finds the first player of this user,
    and [players.remove(player)] takes this player object out. *)
Definition leave_game_button (u : user_handle) (self : CorelliaGameView)
  : outcome * CorelliaGameView :=
  if self.(game_started) then (Refused, self)
  else
    match list_find (λ p, p.(user) = u) self.(players) with
    | Some (i, _) =>
        (LobbyUpdated,
         update_lobby_embed (set_players (delete i self.(players)) self))
    | None => (Refused, self)
    end.

(** What a user can do in the lobby. *)
Inductive lobby_action :=
  | Join (u : user_handle)
  | Leave (u : user_handle).

Definition press (a : lobby_action) (self : CorelliaGameView)
  : outcome * CorelliaGameView :=
  match a with
  | Join u => play_game_button u self
  | Leave u => leave_game_button u self
  end.

(** A view that waits in the lobby: not started, with distinct users,
    at most eight, who hold no cards, and no turn index yet. *)
Definition in_lobby (g : CorelliaGameView) : Prop :=
  g.(game_started) = false ∧
  NoDup (user_ids g.(players)) ∧
  (length g.(players) ≤ 8)%nat ∧
  Forall (λ p, p.(cards) = []) g.(players) ∧
  g.(current_player_index) = -1.

(** The hands of all players have a card. *)
Definition hands_nonempty (g : CorelliaGameView) : Prop :=
  Forall (λ p, p.(cards) ≠ []) g.(players).

(** The cards in the game: those in the hands and those in the deck. *)
Definition cards_in_game (g : CorelliaGameView) : list Z :=
  cards_held g.(players) ++ g.(deck).

(** From [g] to [g'] no card came into the game, and the deck changed
    only by losing cards from its end. *)
Definition no_new_cards (g g' : CorelliaGameView) : Prop :=
  cards_in_game g' ⊆+ cards_in_game g ∧ g'.(deck) `prefix_of` g.(deck).

(** The part of [end_game] after Lando has been added: the message for the
    players [ps] that are left. *)
Definition final_hands (ps : list Player) : outcome :=
  if bool_decide (ps = []) then GameOver NobodyWon
  else
    match evaluate_all ps with
    | Raise e => Raised e
    | Ok evaluated_hands =>
        let evaluated_hands := sort_by_key evaluated_hands in
        match evaluated_hands with
        | [] => Raised IndexError
        | eh0 :: _ =>
            GameOver (FinalHands evaluated_hands
                        (filter (λ eh : evaluated, eh.1.1.1 = eh0.1.1.1)
                           evaluated_hands))
        end
    end.

(** [e] is the entry that the evaluation loop appends for [p]. *)
Definition evaluation_of (p : Player) (e : evaluated) : Prop :=
  e.1.1.2 = p ∧ evaluate_hand p = Ok (e.1.1.1, e.1.2, e.2).

(** The hand of [e2] does not beat the hand of [e1]. *)
Definition not_beaten_by (e1 e2 : evaluated) : Prop :=
  key_ltb e2.1.1.1 e1.1.1.1 = false.

(** A player is left, and a game that is not solo has at least two. *)
Definition enough_players (g : CorelliaGameView) : Prop :=
  g.(players) ≠ [] ∧ (g.(solo_game) = false → (2 ≤ length g.(players))%nat).

(** * Properties *)

(** ** Python primitives *)

Section primitives.
Context {A : Type}.
Implicit Types (x : list A) (l : list A).

Lemma list_pop_snoc l a : list_pop (l ++ [a]) = Ok (a, l).
Proof. unfold list_pop. by rewrite reverse_snoc, reverse_involutive. Qed.

(** A list is empty or ends in some element. *)
Lemma list_snoc_cases l : l = [] ∨ ∃ l' a, l = l' ++ [a].
Proof.
  induction l as [|b l [->|(l' & a & ->)]]; [by left|right..].
  - by exists [], b.
  - by exists (b :: l'), a.
Qed.

Lemma insert_head_perm x j a b :
  x !! j = Some b → b :: <[j:=a]> x ≡ₚ a :: x.
Proof.
  revert j. induction x as [|c x IH]; intros [|j] Hj; simplify_eq/=.
  - apply perm_swap.
  - rewrite (perm_swap c b), (IH _ Hj). apply perm_swap.
Qed.

Lemma swap_perm i j x : swap i j x ≡ₚ x.
Proof.
  unfold swap. revert i j.
  induction x as [|c x IH]; intros i j; [by destruct i, j|].
  destruct i as [|i], j as [|j]; simpl.
  - done.
  - destruct (x !! j) as [b|] eqn:Hj; [|done]. simpl.
    by apply insert_head_perm.
  - destruct (x !! i) as [a|] eqn:Hi; [|done]. simpl.
    by apply insert_head_perm.
  - specialize (IH i j).
    destruct (x !! i) as [a|]; [|done].
    destruct (x !! j) as [b|]; [|done].
    simpl. by rewrite IH.
Qed.

Lemma shuffle_from_perm rng i x : shuffle_from rng i x ≡ₚ x.
Proof.
  revert rng x. induction i as [|i IH]; intros rng x; simpl; [done|].
  rewrite IH. apply swap_perm.
Qed.

Lemma shuffle_perm rng x : shuffle rng x ≡ₚ x.
Proof. apply shuffle_from_perm. Qed.

Lemma shuffle_length rng x : length (shuffle rng x) = length x.
Proof. by rewrite shuffle_perm. Qed.

Lemma swap_same i x : swap i i x = x.
Proof.
  unfold swap. destruct (x !! i) as [a|] eqn:Hi; [|done].
  by rewrite !(list_insert_id x) by done.
Qed.

(** When [randbelow(i + 1)] returns [i] every time, the list stays in
    its order. *)
Lemma shuffle_from_in_place i x : shuffle_from (rev (seq 1 i)) i x = x.
Proof.
  induction i as [|i IH]; [done|].
  rewrite seq_S, rev_app_distr. simpl rev. simpl app.
  cbn [shuffle_from hd tl]. rewrite Nat.mod_small by lia.
  by rewrite swap_same.
Qed.
End primitives.

Lemma list_remove_elem_of x l :
  x ∈ l →
  ∃ l1 l2, l = l1 ++ x :: l2 ∧ (x ∉ l1) ∧ list_remove x l = Ok (l1 ++ l2).
Proof.
  induction l as [|y l IH]; intros Hin; [by apply elem_of_nil in Hin|].
  simpl. destruct (decide (x = y)) as [->|Hne].
  - exists [], l. split_and!; [done| |done]. apply not_elem_of_nil.
  - apply elem_of_cons in Hin as [?|Hin]; [done|].
    destruct (IH Hin) as (l1 & l2 & -> & Hl1 & ->).
    exists (y :: l1), l2. split_and!; [done| |done].
    rewrite elem_of_cons. by intros [?|?].
Qed.

(** ** Player *)

Lemma draw_card_snoc self deck card :
  draw_card self (deck ++ [card])
  = Ok (mkPlayer self.(user) (self.(cards) ++ [card]), deck).
Proof.
  unfold draw_card. rewrite list_pop_snoc.
  by destruct (deck ++ [card]) eqn:E; [destruct deck; simplify_eq/=|].
Qed.

(** A draw either raises on the empty deck, or moves the last card of the
    deck to the end of the hand. *)
Lemma draw_card_cases self deck :
  (deck = [] ∧ draw_card self deck = Raise ValueError) ∨
  (∃ deck' card, deck = deck' ++ [card] ∧
     draw_card self deck
     = Ok (mkPlayer self.(user) (self.(cards) ++ [card]), deck')).
Proof.
  destruct (list_snoc_cases deck) as [->|(deck' & card & ->)]; [by left|].
  right. exists deck', card. by rewrite draw_card_snoc.
Qed.

(** C5. [discard_card] never raises. It returns [True] exactly when the
    card is in the hand and the hand has more than one card, and then the
    hand loses the first occurrence of the card and nothing else. In every
    other case it returns [False] and the player is unchanged; a hand of
    exactly one card is always such a case. *)
Theorem discard_card_spec (self : Player) (card : Z) :
  ∃ (ok : bool) (self' : Player),
    discard_card self card = Ok (ok, self') ∧
    (ok = true ↔ card ∈ self.(cards) ∧ (1 < length self.(cards))%nat) ∧
    (ok = true →
       self'.(user) = self.(user) ∧
       length self'.(cards) = (length self.(cards) - 1)%nat ∧
       ∃ l1 l2, self.(cards) = l1 ++ card :: l2 ∧ (card ∉ l1) ∧
                self'.(cards) = l1 ++ l2) ∧
    (ok = false → self' = self) ∧
    (length self.(cards) = 1%nat → ok = false ∧ self' = self).
Proof.
  unfold discard_card, py_in.
  case_bool_decide as Hlen.
  { exists false, self. split_and!; try done.
    split; [done|]. intros [_ ?]. lia. }
  case_bool_decide as Hin.
  - destruct (list_remove_elem_of _ _ Hin) as (l1 & l2 & Hc & Hl1 & ->).
    eexists true, _. split_and!; simpl; try done.
    + split; [|done]. intros _. split; [done|lia].
    + intros _. split_and!; [done| |by exists l1, l2].
      simpl. rewrite Hc, !length_app. simpl. lia.
    + intros ?. lia.
  - exists false, self. split_and!; try done.
    split; [done|]. by intros [? _].
Qed.

(** The statement of C4 fails when the deck is empty: the card is in the
    hand, and [replace_card] returns [False] with nothing changed. *)
Lemma replace_card_empty_deck :
  let self := mkPlayer (Human 0) [3] in
  3 ∈ self.(cards) ∧
  replace_card self 3 [] = Ok (false, self, []) ∧
  ¬ ((∃ self' deck', replace_card self 3 [] = Ok (true, self', deck'))
     ↔ 3 ∈ self.(cards)).
Proof.
  simpl. split_and!.
  - apply list_elem_of_here.
  - done.
  - intros [_ H]. destruct H as (? & ? & H); [apply list_elem_of_here|].
    vm_compute in H. discriminate.
Qed.

(** C4, amended. [replace_card] never raises. It returns [True] exactly
    when the card is in the hand and the deck is not empty; then the hand
    loses the first occurrence of the card and gains the last card of the
    deck at its end, so its size is unchanged. Otherwise it returns [False]
    and neither the player nor the deck changes. It succeeds on a hand of
    one card: it has no floor on the hand size. *)
Theorem replace_card_spec (self : Player) (card : Z) (deck : list Z) :
  ∃ (ok : bool) (self' : Player) (deck' : list Z),
    replace_card self card deck = Ok (ok, self', deck') ∧
    (ok = true ↔ card ∈ self.(cards) ∧ deck ≠ []) ∧
    (ok = true →
       self'.(user) = self.(user) ∧
       length self'.(cards) = length self.(cards) ∧
       ∃ l1 l2 new, self.(cards) = l1 ++ card :: l2 ∧ (card ∉ l1) ∧
                    deck = deck' ++ [new] ∧
                    self'.(cards) = l1 ++ l2 ++ [new]) ∧
    (ok = false → self' = self ∧ deck' = deck) ∧
    (self.(cards) = [card] → deck ≠ [] → ok = true).
Proof.
  unfold replace_card, py_in.
  case_bool_decide as Hin; simpl.
  - case_bool_decide as Hdeck; simpl.
    + destruct (list_remove_elem_of _ _ Hin) as (l1 & l2 & Hc & Hl1 & ->).
      simpl.
      destruct (draw_card_cases (mkPlayer self.(user) (l1 ++ l2)) deck)
        as [[? _]|(deck' & new & -> & ->)]; [done|].
      eexists true, _, deck'. simpl. split_and!; try done.
      intros _. split_and!; [done| |].
      * simpl. rewrite Hc, !length_app. simpl. lia.
      * exists l1, l2, new. by rewrite <-(assoc_L (++)).
    + exists false, self, deck. split_and!; try done.
      split; [done|]. by intros [_ ?].
  - exists false, self, deck. split_and!; try done.
    + split; [done|]. by intros [? _].
    + intros Hc. rewrite Hc in Hin. destruct Hin. apply list_elem_of_here.
Qed.

Lemma replace_card_spec_witness :
  ∃ ok self' deck',
    replace_card (mkPlayer (Human 0) [3]) 3 [7; 4] = Ok (ok, self', deck') ∧
    ok = true.
Proof.
  destruct (replace_card_spec (mkPlayer (Human 0) [3]) 3 [7; 4])
    as (ok & self' & deck' & Heq & _ & _ & _ & Hone).
  exists ok, self', deck'. split; [exact Heq|].
  apply Hone; [reflexivity|discriminate].
Defined.

(** ** Deck *)

Global Instance occurrences_perm v : Proper ((≡ₚ) ==> (=)) (occurrences v).
Proof. intros l1 l2 Hl. unfold occurrences. by rewrite Hl. Qed.

Lemma occurrences_out_of_range (v lo hi : Z) (l : list Z) :
  Forall (λ c, lo ≤ c ≤ hi) l → ¬ (lo ≤ v ≤ hi) → occurrences v l = 0%nat.
Proof.
  unfold occurrences. induction 1 as [|c l Hc _ IH]; intros Hv; [done|].
  rewrite filter_cons. case_decide; [lia|auto].
Qed.

Lemma unshuffled_deck_occurrences v :
  occurrences v unshuffled_deck = copies_in_deck v.
Proof.
  destruct (decide (-10 ≤ v ≤ 10)) as [Hv|Hv].
  - assert (Forall (λ v, occurrences v unshuffled_deck = copies_in_deck v)
              (seqZ (-10) 21)) as Hall.
    { apply (bool_decide_unpack _). by vm_compute. }
    rewrite Forall_forall in Hall. apply Hall.
    apply elem_of_seqZ. lia.
  - rewrite (occurrences_out_of_range v (-10) 10); [|
      apply (bool_decide_unpack _); by vm_compute | done].
    unfold copies_in_deck. repeat case_decide; lia.
Qed.

Lemma cards_held_insert ps i p p' card :
  ps !! i = Some p → p'.(cards) = p.(cards) ++ [card] →
  cards_held (<[i:=p']> ps) ≡ₚ card :: cards_held ps.
Proof.
  intros Hi Hp'. unfold cards_held.
  rewrite <-(take_drop_middle ps i p) at 2 by done.
  rewrite insert_take_drop by (by eapply lookup_lt_Some).
  rewrite !bind_app, !bind_cons, Hp'.
  rewrite <-!(assoc_L (++)). simpl.
  by rewrite <-!Permutation_middle.
Qed.

(** A draw moves one card from the deck to a hand, or changes nothing. *)
Lemma draw_by_perm ps deck i :
  cards_held (draw_by (ps, deck) i).1 ++ (draw_by (ps, deck) i).2
  ≡ₚ cards_held ps ++ deck.
Proof.
  unfold draw_by. simpl.
  destruct (ps !! i) as [p|] eqn:Hi; [|done].
  destruct (draw_card_cases p deck) as [[-> ->]|(deck' & card & -> & ->)];
    [done|]. simpl.
  rewrite (cards_held_insert ps i p _ card) by done.
  rewrite (assoc_L (++)), <-Permutation_cons_append. done.
Qed.

Lemma draws_perm draws ps deck :
  cards_held (foldl draw_by (ps, deck) draws).1
    ++ (foldl draw_by (ps, deck) draws).2
  ≡ₚ cards_held ps ++ deck.
Proof.
  revert ps deck. induction draws as [|i draws IH]; intros ps deck; [done|].
  simpl. destruct (draw_by (ps, deck) i) as [ps' deck'] eqn:E.
  rewrite IH. pose proof (draw_by_perm ps deck i) as H.
  by rewrite E in H.
Qed.

Lemma cards_held_init us : cards_held (Player_init <$> us) = [].
Proof. induction us as [|u us IH]; [done|]. unfold cards_held in *. by simpl. Qed.

(** C3. Whatever the shuffle does, the generated deck has 62 cards: three
    copies of each of +1..+10 and of -1..-10, two copies of 0, and nothing
    else. After any sequence of draws by players who start with empty
    hands, the cards drawn together with the cards left in the deck are a
    rearrangement of the generated deck, hence of these 62 cards. *)
Theorem deck_composition (rng : list nat) :
  length (generate_deck rng) = 62%nat ∧
  (∀ v, occurrences v (generate_deck rng) = copies_in_deck v) ∧
  (∀ (us : list user_handle) (draws : list nat),
     let st := foldl draw_by (Player_init <$> us, generate_deck rng) draws in
     cards_held st.1 ++ st.2 ≡ₚ generate_deck rng ∧
     cards_held st.1 ++ st.2 ≡ₚ unshuffled_deck ∧
     ∀ v, (occurrences v (cards_held st.1) + occurrences v st.2)%nat
          = copies_in_deck v).
Proof.
  assert (generate_deck rng ≡ₚ unshuffled_deck) as Hgen by apply shuffle_perm.
  split_and!.
  - by rewrite Hgen.
  - intros v. rewrite Hgen. apply unshuffled_deck_occurrences.
  - intros us draws st.
    assert (cards_held st.1 ++ st.2 ≡ₚ generate_deck rng) as Hst.
    { unfold st. rewrite draws_perm, cards_held_init. done. }
    split_and!; [done|by rewrite Hst|].
    intros v. rewrite <-unshuffled_deck_occurrences, <-Hgen, <-Hst.
    unfold occurrences. by rewrite filter_app, length_app.
Qed.

(** ** Hand evaluation *)

Lemma key_ltb_cons_eq a k1 k2 : key_ltb (a :: k1) (a :: k2) = key_ltb k1 k2.
Proof. simpl. by rewrite decide_True. Qed.

Lemma key_ltb_cons_ne a b k1 k2 :
  a ≠ b → key_ltb (a :: k1) (b :: k2) = num_ltb a b.
Proof. intros. simpl. by rewrite decide_False. Qed.

Lemma neg_max_or_neg_inf_ok l : ∃ x, neg_max_or_neg_inf l = Ok x.
Proof. destruct l; simpl; eauto. Qed.

(** The result of [evaluate_hand] on a hand whose total is not zero. *)
Lemma evaluate_hand_nonzero (player : Player) :
  sum player.(cards) ≠ 0 →
  ∃ x, evaluate_hand player
       = Ok ([Int 10; Int (Z.abs (sum player.(cards)));
              Int (if bool_decide (0 < sum player.(cards)) then 0 else 1);
              Int (- Z.of_nat (length player.(cards)));
              Int (- sum (filter (λ c, 0 < c) player.(cards))); x],
             Nulrhek, sum player.(cards)).
Proof.
  intros Hsum. unfold evaluate_hand.
  rewrite (bool_decide_eq_false_2 _ Hsum).
  destruct (neg_max_or_neg_inf_ok (filter (λ c, 0 < c) player.(cards)))
    as [x ->].
  by exists x.
Qed.

(** C2. Two hands with nonzero totals both evaluate; the hand whose total
    is smaller in absolute value has the strictly smaller key; and when the
    absolute values are equal, a positive total has a strictly smaller key
    than a negative one. *)
Theorem nonzero_totals_order (p1 p2 : Player) :
  get_total p1 ≠ 0 → get_total p2 ≠ 0 →
  ∃ e1 e2,
    evaluate_hand p1 = Ok e1 ∧ evaluate_hand p2 = Ok e2 ∧
    (Z.abs (get_total p1) < Z.abs (get_total p2) →
       key_ltb (eval_key e1) (eval_key e2) = true ∧
       key_ltb (eval_key e2) (eval_key e1) = false) ∧
    (Z.abs (get_total p1) = Z.abs (get_total p2) →
     0 < get_total p1 → get_total p2 < 0 →
       key_ltb (eval_key e1) (eval_key e2) = true ∧
       key_ltb (eval_key e2) (eval_key e1) = false).
Proof.
  unfold get_total. intros H1 H2.
  destruct (evaluate_hand_nonzero p1 H1) as [x1 ->].
  destruct (evaluate_hand_nonzero p2 H2) as [x2 ->].
  eexists _, _. split_and!; [done..| |]; unfold eval_key; cbn [fst snd].
  - intros Hlt. rewrite !key_ltb_cons_eq.
    rewrite !key_ltb_cons_ne by (intros [=]; lia). simpl.
    split; [apply bool_decide_eq_true|apply bool_decide_eq_false]; lia.
  - intros Heq Hpos Hneg. rewrite Heq, !key_ltb_cons_eq.
    rewrite (bool_decide_eq_true_2 (0 < sum (cards p1))) by done.
    rewrite (bool_decide_eq_false_2 (0 < sum (cards p2))) by lia.
    by rewrite !key_ltb_cons_ne by done.
Qed.

Lemma nonzero_totals_order_witness :
  ∃ e1 e2,
    evaluate_hand (mkPlayer (Human 1) [1; 2]) = Ok e1 ∧
    evaluate_hand (mkPlayer (Human 2) [-1; -2]) = Ok e2 ∧
    key_ltb (eval_key e1) (eval_key e2) = true.
Proof.
  destruct (nonzero_totals_order
              (mkPlayer (Human 1) [1; 2]) (mkPlayer (Human 2) [-1; -2]))
    as (e1 & e2 & He1 & He2 & _ & Hsign); [vm_compute; discriminate..|].
  exists e1, e2. split_and!; [exact He1|exact He2|].
  apply Hsign; reflexivity.
Defined.

(** *** The dictionaries [counts] and [abs_counts] *)

Lemma occurrences_cons v c l :
  occurrences v (c :: l)
  = ((if decide (c = v) then 1 else 0) + occurrences v l)%nat.
Proof. unfold occurrences. rewrite filter_cons. by case_decide. Qed.

Lemma occurrences_zero v l : v ∉ l → occurrences v l = 0%nat.
Proof.
  induction l as [|c l IH]; intros Hv; [done|].
  apply not_elem_of_cons in Hv as [Hne Hv].
  rewrite occurrences_cons, decide_False by done. auto.
Qed.

Lemma occurrences_pos v l : v ∈ l ↔ (1 ≤ occurrences v l)%nat.
Proof.
  split.
  - induction 1 as [v l|v c l _ IH]; rewrite occurrences_cons.
    + rewrite decide_True by done. lia.
    + lia.
  - intros Hocc. destruct (decide (v ∈ l)) as [|Hv]; [done|].
    rewrite (occurrences_zero _ _ Hv) in Hocc. lia.
Qed.

(** The dictionary after the counting loop over [l], started from [d]. *)
Lemma count_up_lookup (d : gmap Z nat) l v :
  foldl count_up d l !! v
  = if decide (v ∈ l)
    then Some (default 0 (d !! v) + occurrences v l)%nat
    else d !! v.
Proof.
  revert d. induction l as [|c l IH]; intros d; [done|].
  simpl. rewrite IH, occurrences_cons. unfold count_up.
  destruct (decide (c = v)) as [->|Hne].
  - rewrite lookup_insert_eq. simpl.
    rewrite (decide_True (P:=v ∈ v :: l)) by apply list_elem_of_here.
    case_decide as Hv; f_equal; [lia|].
    rewrite (occurrences_zero _ _ Hv). lia.
  - rewrite lookup_insert_ne by done.
    case_decide as Hv.
    + rewrite decide_True by (by apply list_elem_of_further). f_equal.
    + rewrite decide_False; [done|].
      rewrite elem_of_cons. by intros [?|?].
Qed.

Lemma counts_lookup l v :
  foldl count_up ∅ l !! v
  = if decide (v ∈ l) then Some (occurrences v l) else None.
Proof. rewrite count_up_lookup, lookup_empty. by case_decide. Qed.

Lemma counts_get l v : default 0%nat (foldl count_up ∅ l !! v) = occurrences v l.
Proof.
  rewrite counts_lookup. case_decide as Hv; [done|].
  by rewrite occurrences_zero.
Qed.

Lemma counts_perm l1 l2 :
  l1 ≡ₚ l2 → foldl count_up ∅ l1 = foldl count_up ∅ l2.
Proof.
  intros Hl. apply map_eq. intros v. rewrite !counts_lookup.
  rewrite (occurrences_perm v _ _ Hl).
  destruct (decide (v ∈ l1)) as [H1|H1], (decide (v ∈ l2)) as [H2|H2];
    try done; rewrite Hl in H1; done.
Qed.

Lemma abs_counts_fmap l :
  foldl (λ d card, count_up d (Z.abs card)) ∅ l
  = foldl count_up ∅ (Z.abs <$> l).
Proof. by rewrite foldl_fmap. Qed.

Lemma occurrences_abs a l : occurrences a (Z.abs <$> l) = abs_occurrences a l.
Proof.
  unfold occurrences, abs_occurrences.
  induction l as [|c l IH]; [done|].
  rewrite fmap_cons, !filter_cons. repeat case_decide; simpl; auto; done.
Qed.

(** An entry of [abs_counts]: an absolute value that occurs, with the
    number of cards that have it. *)
Lemma abs_counts_entry l a n :
  (a, n) ∈ map_to_list (foldl (λ d card, count_up d (Z.abs card)) ∅ l)
  ↔ a ∈ Z.abs <$> l ∧ n = abs_occurrences a l.
Proof.
  rewrite elem_of_map_to_list, abs_counts_fmap, counts_lookup, occurrences_abs.
  case_decide as Ha; split.
  - by intros [= <-].
  - by intros [_ ->].
  - done.
  - by intros [? _].
Qed.

(** *** [sum], [min], [max] and [sorted] do not depend on the order *)

Lemma foldl_add a l : foldl Z.add a l = a + sum l.
Proof.
  unfold sum. revert a. induction l as [|c l IH]; intros a; simpl; [lia|].
  rewrite (IH (a + c)), (IH (0 + c)). lia.
Qed.

Lemma sum_cons c l : sum (c :: l) = c + sum l.
Proof. unfold sum at 1. simpl. by rewrite foldl_add. Qed.

Lemma sum_perm l1 l2 : l1 ≡ₚ l2 → sum l1 = sum l2.
Proof. induction 1; rewrite ?sum_cons; lia. Qed.

(** [foldl Z.min x l] is the least element of [x :: l]. *)
Lemma foldl_min_spec x l :
  foldl Z.min x l ∈ x :: l ∧ Forall (λ c, foldl Z.min x l ≤ c) (x :: l).
Proof.
  revert x. induction l as [|c l IH]; intros x; simpl.
  - split; [apply list_elem_of_here|]. repeat constructor. lia.
  - destruct (IH (Z.min x c)) as [Hin Hle].
    apply Forall_cons in Hle as [Hhd Hle]. split.
    + apply elem_of_cons in Hin as [Hin|Hin].
      * rewrite Hin. destruct (Z.min_spec x c) as [[_ ->]|[_ ->]].
        -- apply list_elem_of_here.
        -- apply list_elem_of_further, list_elem_of_here.
      * by do 2 apply list_elem_of_further.
    + repeat constructor; [lia..|done].
Qed.

Lemma foldl_max_spec x l :
  foldl Z.max x l ∈ x :: l ∧ Forall (λ c, c ≤ foldl Z.max x l) (x :: l).
Proof.
  revert x. induction l as [|c l IH]; intros x; simpl.
  - split; [apply list_elem_of_here|]. repeat constructor. lia.
  - destruct (IH (Z.max x c)) as [Hin Hle].
    apply Forall_cons in Hle as [Hhd Hle]. split.
    + apply elem_of_cons in Hin as [Hin|Hin].
      * rewrite Hin. destruct (Z.max_spec x c) as [[_ ->]|[_ ->]].
        -- apply list_elem_of_further, list_elem_of_here.
        -- apply list_elem_of_here.
      * by do 2 apply list_elem_of_further.
    + repeat constructor; [lia..|done].
Qed.

(** [min] raises exactly on the empty sequence, and otherwise returns the
    least element. *)
Lemma py_min_spec l m :
  py_min l = Ok m ↔ m ∈ l ∧ Forall (λ c, m ≤ c) l.
Proof.
  destruct l as [|x l]; simpl.
  - split; [done|]. intros [H _]. by apply elem_of_nil in H.
  - destruct (foldl_min_spec x l) as [Hin Hle]. split.
    + by intros [= <-].
    + intros [Hm Hall]. f_equal.
      rewrite Forall_forall in Hle, Hall.
      specialize (Hle _ Hm). specialize (Hall _ Hin). lia.
Qed.

Lemma py_max_spec l m :
  py_max l = Ok m ↔ m ∈ l ∧ Forall (λ c, c ≤ m) l.
Proof.
  destruct l as [|x l]; simpl.
  - split; [done|]. intros [H _]. by apply elem_of_nil in H.
  - destruct (foldl_max_spec x l) as [Hin Hle]. split.
    + by intros [= <-].
    + intros [Hm Hall]. f_equal.
      rewrite Forall_forall in Hle, Hall.
      specialize (Hle _ Hm). specialize (Hall _ Hin). lia.
Qed.

Lemma py_min_ok l : l ≠ [] → ∃ m, py_min l = Ok m.
Proof. destruct l; [done|]. simpl. eauto. Qed.

Lemma py_min_perm l1 l2 : l1 ≡ₚ l2 → py_min l1 = py_min l2.
Proof.
  intros Hl. destruct l1 as [|x l1].
  - by apply Permutation_nil_l in Hl as ->.
  - destruct (py_min_ok (x :: l1)) as [m Hm]; [done|]. rewrite Hm.
    symmetry. apply py_min_spec. apply py_min_spec in Hm. by rewrite <-Hl.
Qed.

Lemma py_max_perm l1 l2 : l1 ≡ₚ l2 → py_max l1 = py_max l2.
Proof.
  intros Hl. destruct l1 as [|x l1].
  - by apply Permutation_nil_l in Hl as ->.
  - assert (∃ m, py_max (x :: l1) = Ok m) as [m Hm] by (simpl; eauto).
    rewrite Hm. symmetry. apply py_max_spec. apply py_max_spec in Hm.
    by rewrite <-Hl.
Qed.

Lemma neg_max_or_neg_inf_perm l1 l2 :
  l1 ≡ₚ l2 → neg_max_or_neg_inf l1 = neg_max_or_neg_inf l2.
Proof.
  intros Hl. destruct l1 as [|x l1].
  - by apply Permutation_nil_l in Hl as ->.
  - destruct l2 as [|y l2]; [by apply Permutation_nil_r in Hl|].
    unfold neg_max_or_neg_inf. by rewrite (py_max_perm _ _ Hl).
Qed.

Lemma sorted_perm l1 l2 : l1 ≡ₚ l2 → sorted l1 = sorted l2.
Proof.
  intros Hl. unfold sorted.
  apply (Sorted_unique Z.le); [apply Sorted_merge_sort, _..|].
  by rewrite !merge_sort_Permutation.
Qed.

(** [sorted(cards) == L] for a sorted [L] says that the cards are [L] in
    some order. *)
Lemma sorted_eq_iff l L : Sorted Z.le L → sorted l = L ↔ l ≡ₚ L.
Proof.
  intros HL. split.
  - intros <-. unfold sorted. by rewrite merge_sort_Permutation.
  - intros Hl. unfold sorted.
    apply (Sorted_unique Z.le); [apply Sorted_merge_sort, _|done|].
    by rewrite merge_sort_Permutation.
Qed.

(** C9. Hands that hold the same cards in a different order evaluate to
    the same result: the same key (rank and tie-breakers), the same hand
    type and the same total, or the same exception. *)
Theorem evaluate_hand_perm (p1 p2 : Player) :
  p1.(cards) ≡ₚ p2.(cards) → evaluate_hand p1 = evaluate_hand p2.
Proof.
  intros Hl. unfold evaluate_hand.
  rewrite (sum_perm _ _ Hl), (counts_perm _ _ Hl).
  rewrite !abs_counts_fmap.
  rewrite (counts_perm (Z.abs <$> cards p1) (Z.abs <$> cards p2))
    by (by rewrite Hl).
  rewrite (sorted_perm _ _ Hl).
  rewrite (Permutation_length Hl).
  rewrite (py_min_perm (Z.abs <$> cards p1) (Z.abs <$> cards p2))
    by (by rewrite Hl).
  rewrite (py_min_perm (Z.abs <$> filter _ (cards p1))
             (Z.abs <$> filter (λ c, c ≠ 0) (cards p2))) by (by rewrite Hl).
  rewrite (sum_perm (filter _ (cards p1)) (filter (λ c, 0 < c) (cards p2)))
    by (by rewrite Hl).
  rewrite (neg_max_or_neg_inf_perm (filter _ (cards p1))
             (filter (λ c, 0 < c) (cards p2))) by (by rewrite Hl).
  rewrite (list_to_set_perm_L (cards p1) (cards p2) Hl).
  done.
Qed.

Lemma evaluate_hand_perm_witness :
  evaluate_hand (mkPlayer (Human 1) [2; 0; -2])
  = evaluate_hand (mkPlayer (Human 1) [0; -2; 2]).
Proof.
  apply (evaluate_hand_perm (mkPlayer (Human 1) [2; 0; -2])
           (mkPlayer (Human 1) [0; -2; 2])).
  simpl. apply (bool_decide_unpack _). vm_compute. reflexivity.
Defined.

(** *** The tests of [evaluate_hand] against the rows of the table *)

Lemma bool_eq_decide (b : bool) (P : Prop) `{!Decision P} :
  (b = true ↔ P) → b = bool_decide P.
Proof.
  intros Hb. destruct b; case_bool_decide; try done.
  - by destruct Hb as [Hb _]; specialize (Hb eq_refl).
  - by destruct Hb as [_ Hb]; specialize (Hb ltac:(done)).
Qed.

Lemma if_bool_decide {A} (P : Prop) `{!Decision P} (a b : A) :
  (if bool_decide P then a else b) = (if decide P then a else b).
Proof. case_bool_decide; [by rewrite decide_True|by rewrite decide_False]. Qed.

Lemma length_filter_all {A} (P : A → Prop) `{!∀ x, Decision (P x)} l :
  length (filter P l) = length l ↔ Forall P l.
Proof.
  induction l as [|x l IH]; [by split|].
  rewrite filter_cons, Forall_cons. case_decide as Hx; simpl.
  - rewrite <-IH. split; [intros [=]; by split|by intros [_ ->]].
  - pose proof (length_filter P l). split; [lia|by intros [? _]].
Qed.

Lemma length_filter_fmap {A B} (f : A → B) (P : B → Prop)
    `{!∀ x, Decision (P x)} l :
  length (filter P (f <$> l)) = length (filter (P ∘ f) l).
Proof.
  induction l as [|x l IH]; [done|].
  rewrite fmap_cons, !filter_cons. unfold compose at 1.
  case_decide; simpl; by rewrite IH.
Qed.

(** [zeros == 2 and len(cards) == 2] *)
Lemma pure_sabacc_test cards :
  bool_decide (default 0%nat (foldl count_up ∅ cards !! 0) = 2%nat)
    && bool_decide (length cards = 2%nat)
  = bool_decide (row_condition PureSabacc cards).
Proof.
  apply bool_eq_decide. rewrite andb_true_iff, !bool_decide_eq_true.
  rewrite counts_get. simpl. unfold occurrences. split.
  - intros [Hz Hlen]. split; [done|].
    apply (proj1 (length_filter_all (λ c, c = 0) cards)). by rewrite Hz.
  - intros [Hlen Hall]. split; [|done].
    apply (proj2 (length_filter_all (λ c, c = 0) cards)) in Hall.
    by rewrite Hall.
Qed.

(** [sorted(cards) == [-10, -10, 0, +10, +10]] *)
Lemma full_sabacc_test cards :
  bool_decide (sorted cards = [-10; -10; 0; 10; 10])
  = bool_decide (row_condition FullSabacc cards).
Proof.
  apply bool_decide_ext. rewrite sorted_eq_iff.
  - simpl. split; intros ->; apply (bool_decide_unpack _); by vm_compute.
  - repeat constructor; lia.
Qed.

(** [zeros == 1 and any(count >= 2 for value, count in abs_counts.items()
    if value != 0)] *)
Lemma yee_haa_test cards :
  bool_decide (default 0%nat (foldl count_up ∅ cards !! 0) = 1%nat)
    && existsb (λ '(value, count), bool_decide (2 ≤ count)%nat)
         (filter (λ vc, vc.1 ≠ 0)
            (map_to_list (foldl (λ d card, count_up d (Z.abs card)) ∅ cards)))
  = bool_decide (row_condition YeeHaa cards).
Proof.
  apply bool_eq_decide. rewrite andb_true_iff, bool_decide_eq_true.
  rewrite counts_get. simpl. apply and_iff_compat_l.
  rewrite <-Is_true_true, existb_True, !Exists_exists. split.
  - intros ([a n] & Hin & Hn).
    apply list_elem_of_filter in Hin as [Ha Hin]. simpl in Ha.
    apply abs_counts_entry in Hin as [Hin ->].
    apply bool_decide_unpack in Hn. by exists a.
  - intros (a & Hin & Ha & Hn).
    exists (a, abs_occurrences a cards). split.
    + apply list_elem_of_filter. split; [done|]. by apply abs_counts_entry.
    + by apply bool_decide_pack.
Qed.

(** [len([count for count in abs_counts.values() if count >= 2]) >= 2] *)
Lemma rule_of_two_test cards :
  bool_decide
    (2 ≤ length (filter (λ count, 2 ≤ count)%nat
                   (snd <$> map_to_list
                      (foldl (λ d card, count_up d (Z.abs card)) ∅ cards))))%nat
  = bool_decide (row_condition RuleOfTwo cards).
Proof.
  apply bool_decide_ext. simpl.
  rewrite length_filter_fmap.
  set (pairs := filter _ (map_to_list _)).
  set (values := remove_dups _).
  assert (pairs ≡ₚ (λ a, (a, abs_occurrences a cards)) <$> values) as ->.
  { apply NoDup_Permutation.
    - apply NoDup_filter, NoDup_map_to_list.
    - apply NoDup_fmap_2; [by intros a b [= ->]|apply NoDup_remove_dups].
    - intros [a n]. unfold pairs, values. split.
      + intros Hin. apply list_elem_of_filter in Hin as [Hn Hin].
        apply abs_counts_entry in Hin as [Hin ->]. simpl in Hn.
        apply list_elem_of_fmap. exists a. split; [done|].
        by apply elem_of_remove_dups, list_elem_of_filter.
      + intros Hin. apply list_elem_of_fmap in Hin as (a' & [= <- ->] & Hin).
        apply elem_of_remove_dups, list_elem_of_filter in Hin as [? ?].
        apply list_elem_of_filter. split; [done|].
        by apply abs_counts_entry. }
  by rewrite length_fmap.
Qed.

(** [any(counts.get(value, 0) >= 1 and counts.get(-value, 0) >= 1
        for value in set(cards) if value > 0)] *)
Lemma sabacc_pair_test cards :
  existsb
    (λ value,
       bool_decide (1 ≤ default 0 (foldl count_up ∅ cards !! value))%nat &&
       bool_decide (1 ≤ default 0 (foldl count_up ∅ cards !! (- value)))%nat)
    (filter (λ value, 0 < value) (elements (list_to_set cards : gset Z)))
  = bool_decide (row_condition SabaccPair cards).
Proof.
  apply bool_eq_decide. simpl.
  rewrite <-Is_true_true, existb_True, !Exists_exists. split.
  - intros (v & Hin & Hv).
    apply list_elem_of_filter in Hin as [Hpos Hin].
    apply elem_of_elements, elem_of_list_to_set in Hin.
    apply andb_prop_elim in Hv as [_ Hneg].
    apply bool_decide_unpack in Hneg. rewrite counts_get in Hneg.
    exists v. split_and!; [done..|]. by apply occurrences_pos.
  - intros (v & Hin & Hpos & Hneg). exists v. split.
    + apply list_elem_of_filter. split; [done|].
      by apply elem_of_elements, elem_of_list_to_set.
    + apply andb_prop_intro. rewrite !counts_get.
      split; apply bool_decide_pack; by apply occurrences_pos.
Qed.

(** The result of [evaluate_hand] on a hand whose total is zero, with its
    tests read as the conditions of the table rows. *)
Lemma evaluate_hand_zero (player : Player) :
  sum player.(cards) = 0 →
  evaluate_hand player =
    let cards := player.(cards) in
    if decide (row_condition PureSabacc cards) then Ok ([Int 1], PureSabacc, 0)
    else if decide (row_condition FullSabacc cards)
    then Ok ([Int 2], FullSabacc, 0)
    else if decide (row_condition YeeHaa cards) then
      m ← py_min (Z.abs <$> filter (λ c, c ≠ 0) cards);
      Ok ([Int 3; Int m], YeeHaa, 0)
    else if decide (row_condition RuleOfTwo cards) then
      m ← py_min (Z.abs <$> cards); Ok ([Int 4; Int m], RuleOfTwo, 0)
    else if decide (row_condition SabaccPair cards) then
      m ← py_min (Z.abs <$> cards); Ok ([Int 5; Int m], SabaccPair, 0)
    else
      m ← py_min (Z.abs <$> cards);
      x ← neg_max_or_neg_inf (filter (λ c, 0 < c) cards);
      Ok ([Int 6; Int m; Int (- Z.of_nat (length cards));
           Int (- sum (filter (λ c, 0 < c) cards)); x], Sabacc, 0).
Proof.
  intros Hsum. unfold evaluate_hand. cbv zeta.
  rewrite Hsum, (bool_decide_eq_true_2 (0 = 0)) by done.
  rewrite pure_sabacc_test, full_sabacc_test, yee_haa_test, rule_of_two_test,
    sabacc_pair_test.
  rewrite !if_bool_decide.
  repeat (case_decide; [try done|]).
  - by destruct (py_min _).
  - by destruct (py_min _).
  - by destruct (py_min _).
  - destruct (py_min _); [|done]. simpl.
    by destruct (neg_max_or_neg_inf _).
Qed.

(** In the Yee-Haa row some card is not zero. *)
Lemma yee_haa_nonzero cards :
  row_condition YeeHaa cards → filter (λ c, c ≠ 0) cards ≠ [].
Proof.
  intros [_ Hex]. apply Exists_exists in Hex as (a & Hin & Ha & _).
  apply list_elem_of_fmap in Hin as (c & -> & Hin).
  intros Hnil.
  apply (filter_nil_not_elem_of (λ c, c ≠ 0) cards c) in Hnil; [done|lia].
Qed.

(** Every [min] in [evaluate_hand] is over a sequence that is not empty
    when the hand has a card. *)
Lemma evaluate_hand_ok (player : Player) :
  player.(cards) ≠ [] →
  ∃ key type total, evaluate_hand player = Ok (key, type, total).
Proof.
  intros Hne.
  destruct (decide (sum player.(cards) = 0)) as [Hsum|Hsum].
  - rewrite (evaluate_hand_zero _ Hsum). cbv zeta.
    assert (∃ m, py_min (Z.abs <$> player.(cards)) = Ok m) as [m Hm].
    { apply py_min_ok. by destruct player.(cards). }
    repeat (case_decide; [try by eauto|]).
    + destruct (py_min_ok (Z.abs <$> filter (λ c, c ≠ 0) player.(cards)))
        as [m' ->]; [|simpl; by eauto].
      pose proof (yee_haa_nonzero _ ltac:(eassumption)) as Hnz.
      by destruct (filter _ _).
    + rewrite Hm. simpl. by eauto.
    + rewrite Hm. simpl. by eauto.
    + rewrite Hm. simpl.
      destruct (neg_max_or_neg_inf_ok (filter (λ c, 0 < c) player.(cards)))
        as [x ->].
      simpl. by eauto.
  - destruct (evaluate_hand_nonzero _ Hsum) as [x ->]. by eauto.
Qed.

(** C10. [evaluate_hand] returns a result for every hand that has a card,
    and raises [ValueError] on the empty hand: with no card the total is
    zero, no special row matches, and the plain Sabacc branch takes the
    minimum of an empty sequence. *)
Theorem evaluate_hand_domain :
  (∀ player : Player, player.(cards) ≠ [] →
     ∃ key type total, evaluate_hand player = Ok (key, type, total)) ∧
  (∀ u, sum (mkPlayer u []).(cards) = 0 ∧
        highest_priority_row (mkPlayer u []).(cards) = Some Sabacc ∧
        py_min (Z.abs <$> (mkPlayer u []).(cards)) = Raise ValueError ∧
        evaluate_hand (mkPlayer u []) = Raise ValueError).
Proof.
  split; [apply evaluate_hand_ok|].
  intros u. split_and!; by vm_compute.
Qed.

Lemma evaluate_hand_domain_witness :
  ∃ key type total,
    evaluate_hand (mkPlayer (Human 1) [0]) = Ok (key, type, total).
Proof.
  apply (proj1 evaluate_hand_domain (mkPlayer (Human 1) [0])).
  simpl. discriminate.
Defined.

(** The statement of C1 fails on the hand without cards: its total is
    zero and the last row of the table matches it, and [evaluate_hand]
    raises instead of returning a category. *)
Lemma evaluate_hand_empty_hand :
  sum (mkPlayer (Human 0) []).(cards) = 0 ∧
  highest_priority_row (mkPlayer (Human 0) []).(cards) = Some Sabacc ∧
  evaluate_hand (mkPlayer (Human 0) []) = Raise ValueError.
Proof. split_and!; by vm_compute. Qed.

(** C1, amended. For every hand of at least one card whose cards sum to
    zero, [evaluate_hand] returns the category of the highest-priority
    matching row of the ranking table, with the rank of that row at the
    head of the key. The hand [0, 0] evaluates to Pure Sabacc with rank 1
    and no tie-breaker, the hand [3, -3] to Sabacc Pair with rank 5 and the
    tie-breaker 3, and the key of [3, -3] is strictly smaller than the key
    of [5, -5]. *)
Theorem evaluate_hand_ranking_table :
  (∀ player : Player,
     player.(cards) ≠ [] → sum player.(cards) = 0 →
     ∃ row tie_breakers,
       highest_priority_row player.(cards) = Some row ∧
       evaluate_hand player
       = Ok (Int (row_rank row) :: tie_breakers, row, 0)) ∧
  (∀ u, evaluate_hand (mkPlayer u [0; 0]) = Ok ([Int 1], PureSabacc, 0)) ∧
  (∀ u, evaluate_hand (mkPlayer u [3; -3])
        = Ok ([Int 5; Int 3], SabaccPair, 0)) ∧
  (∀ u u', ∃ e1 e2,
     evaluate_hand (mkPlayer u [3; -3]) = Ok e1 ∧
     evaluate_hand (mkPlayer u' [5; -5]) = Ok e2 ∧
     key_ltb (eval_key e1) (eval_key e2) = true ∧
     key_ltb (eval_key e2) (eval_key e1) = false).
Proof.
  split_and!.
  - intros player Hne Hsum.
    rewrite (evaluate_hand_zero _ Hsum). cbv zeta.
    unfold highest_priority_row, zero_total_rows.
    assert (∃ m, py_min (Z.abs <$> player.(cards)) = Ok m) as [m Hm].
    { apply py_min_ok. by destruct player.(cards). }
    rewrite Hm.
    destruct (neg_max_or_neg_inf_ok (filter (λ c, 0 < c) player.(cards)))
      as [x ->].
    rewrite filter_cons.
    destruct (decide (row_condition PureSabacc _)); [by eexists _, _|].
    rewrite filter_cons.
    destruct (decide (row_condition FullSabacc _)); [by eexists _, _|].
    rewrite filter_cons.
    destruct (decide (row_condition YeeHaa _)) as [Hy|].
    { destruct (py_min_ok (Z.abs <$> filter (λ c, c ≠ 0) player.(cards)))
        as [m' ->]; [|by eexists _, _].
      pose proof (yee_haa_nonzero _ Hy). by destruct (filter _ _). }
    rewrite filter_cons.
    destruct (decide (row_condition RuleOfTwo _)); [by eexists _, _|].
    rewrite filter_cons.
    destruct (decide (row_condition SabaccPair _)); [by eexists _, _|].
    by eexists _, _.
  - intros u. by vm_compute.
  - intros u. by vm_compute.
  - intros u u'. eexists _, _. split_and!; by vm_compute.
Qed.

Lemma evaluate_hand_ranking_table_witness :
  ∃ row tie_breakers,
    highest_priority_row [10; -10; 0] = Some row ∧
    evaluate_hand (mkPlayer (Human 1) [10; -10; 0])
    = Ok (Int (row_rank row) :: tie_breakers, row, 0).
Proof.
  apply (proj1 evaluate_hand_ranking_table (mkPlayer (Human 1) [10; -10; 0])).
  - simpl. discriminate.
  - reflexivity.
Defined.

(** ** Turn and round sequencing *)

Lemma same_turn_state_refl g : same_turn_state g g.
Proof. by repeat split. Qed.

Lemma same_turn_state_trans g1 g2 g3 :
  same_turn_state g1 g2 → same_turn_state g2 g3 → same_turn_state g1 g3.
Proof.
  intros (?&?&?&?&?&?&?) (?&?&?&?&?&?&?). repeat split; congruence.
Qed.

Lemma same_turn_state_length g g' :
  same_turn_state g g' → length g'.(players) = length g.(players).
Proof.
  intros [Hu _]. apply (f_equal length) in Hu.
  unfold user_ids in Hu. by rewrite !length_fmap in Hu.
Qed.

Lemma current_player_Some g p :
  current_player g = Some p →
  0 ≤ g.(current_player_index) < Z.of_nat (length g.(players)) ∧
  g.(players) !! Z.to_nat g.(current_player_index) = Some p.
Proof.
  unfold current_player. case_bool_decide; [|done].
  intros Hp. split; [|done]. apply lookup_lt_Some in Hp. lia.
Qed.

(** Writing back the hand of the player whose turn it is keeps the users. *)
Lemma same_turn_state_set_current_player p p' g :
  current_player g = Some p → p'.(user) = p.(user) →
  same_turn_state g (set_current_player p' g).
Proof.
  intros [_ Hp]%current_player_Some Hu. repeat split. simpl.
  unfold user_ids. rewrite list_fmap_insert, Hu.
  apply list_insert_id. by rewrite list_lookup_fmap, Hp.
Qed.

Lemma current_player_set_current_player p p' g :
  current_player g = Some p →
  current_player (set_current_player p' g) = Some p'.
Proof.
  intros Hp. pose proof (current_player_Some _ _ Hp) as [Hi Hl].
  unfold current_player in *. simpl. case_bool_decide; [|done].
  apply list_lookup_insert_eq. by eapply lookup_lt_Some.
Qed.

Lemma same_turn_state_set_deck d g g' :
  same_turn_state g g' → same_turn_state g (set_deck d g').
Proof. by intros (?&?&?&?&?&?&?). Qed.

(** Without a solo flag [end_game] changes nothing in the view; it sends
    the game-over message or an exception leaves it. *)
Lemma end_game_not_solo g :
  g.(solo_game) = false →
  (end_game g).2 = g ∧
  (is_game_over (end_game g).1 = true ∨ is_raised (end_game g).1 = true).
Proof.
  intros Hsolo. unfold end_game. rewrite Hsolo.
  case_bool_decide; [by auto|].
  destruct (evaluate_all _) as [evs|e]; [|by auto].
  destruct (sort_by_key evs); by auto.
Qed.

(** [end_game] leaves the turn index and the round counters alone. *)
Lemma end_game_counters g :
  (end_game g).2.(current_player_index) = g.(current_player_index) ∧
  (end_game g).2.(rounds_completed) = g.(rounds_completed).
Proof.
  unfold end_game. destruct g.(solo_game).
  - destruct (draw_card _ _) as [[lando deck1]|e]; [|done].
    destruct (draw_card _ _) as [[lando' deck2]|e]; [|done].
    case_bool_decide; [done|].
    destruct (evaluate_all _) as [evs|e]; [|done].
    by destruct (sort_by_key evs).
  - case_bool_decide; [done|].
    destruct (evaluate_all _) as [evs|e]; [|done].
    by destruct (sort_by_key evs).
Qed.

(** The counters after [proceed_to_next_player]: the index moves on by
    one modulo the number of players, and the round counter goes up by one
    exactly when the new index is 0 on a turn that is not the first. *)
Lemma proceed_to_next_player_counters g :
  g.(players) ≠ [] →
  let r := proceed_to_next_player g in
  r.2.(current_player_index) = next_index g ∧
  r.2.(rounds_completed)
  = g.(rounds_completed)
    + (if bool_decide (r.2.(current_player_index) = 0) && negb g.(first_turn)
       then 1 else 0).
Proof.
  intros Hne. unfold proceed_to_next_player, next_index.
  rewrite bool_decide_eq_false_2 by (by destruct g.(players)).
  destruct g as [ps started idx dk rs nc solo total rc first]. simpl in *.
  set (idx' := (idx + 1) `mod` Z.of_nat (length ps)).
  destruct (bool_decide (idx' = 0)) eqn:Hidx, first; simpl;
    rewrite ?Hidx; simpl; try (split; [done|lia]).
  destruct (bool_decide (rc + 1 > total)); simpl.
  - match goal with |- context [end_game ?g1] =>
      destruct (end_game_counters g1) as [-> ->] end.
    simpl. by rewrite Hidx.
  - by rewrite Hidx.
Qed.

(** What [proceed_to_next_player] does to the turn state. *)
Lemma proceed_to_next_player_shape g :
  g.(players) ≠ [] → g.(solo_game) = false →
  let r := proceed_to_next_player g in
  let rc := if round_wraps g then g.(rounds_completed) + 1
            else g.(rounds_completed) in
  r.2.(players) = g.(players) ∧
  r.2.(deck) = g.(deck) ∧
  r.2.(solo_game) = false ∧
  r.2.(total_rounds) = g.(total_rounds) ∧
  r.2.(current_player_index) = next_index g ∧
  r.2.(rounds_completed) = rc ∧
  if round_wraps g && bool_decide (rc > g.(total_rounds))
  then (is_game_over r.1 = true ∨ is_raised r.1 = true) ∧
       r.2.(first_turn) = false
  else r.1 = TurnStarts ∧ r.2.(first_turn) = false.
Proof.
  intros Hne Hsolo. unfold proceed_to_next_player, round_wraps, next_index.
  rewrite bool_decide_eq_false_2 by (by destruct g.(players)).
  destruct g as [ps started idx dk rs nc solo total rc first].
  simpl in *. subst solo.
  set (idx' := (idx + 1) `mod` Z.of_nat (length ps)).
  destruct (bool_decide (idx' = 0)), first; simpl; try done.
  destruct (bool_decide (rc + 1 > total)); simpl; [|done].
  match goal with |- context [end_game ?g1] =>
    destruct (end_game_not_solo g1 eq_refl) as [Heq Ho];
    destruct (end_game g1) as [o g'] end.
  simpl in *. by subst g'.
Qed.

(** An action other than Junk either leaves the turn state alone, with a
    refusal or an exception, or it ends in [proceed_to_next_player], called
    on a view with the turn state of the view the action started from. *)
Lemma play_not_junk a g o g' :
  a ≠ Junk → play a g = (o, g') →
  (same_turn_state g g' ∧ (o = Refused ∨ ∃ e, o = Raised e)) ∨
  (∃ g1, same_turn_state g g1 ∧ g1.(players) ≠ [] ∧
         proceed_to_next_player g1 = (o, g')).
Proof.
  intros Ha Hplay.
  assert (∀ p g1, current_player g = Some p → same_turn_state g g1 →
            g1.(players) ≠ []) as Hne.
  { intros p g1 [Hi _]%current_player_Some Hs%same_turn_state_length Hnil.
    rewrite Hnil in Hs. simpl in Hs. lia. }
  destruct a; simpl in Hplay; try done.
  - (* Draw *)
    unfold draw_card_button in Hplay.
    destruct (current_player g) as [p|] eqn:Hp;
      [|simplify_eq; left; eauto using same_turn_state_refl].
    destruct (draw_card_cases p g.(deck))
      as [[_ Hd]|(deck' & c & _ & Hd)]; rewrite Hd in Hplay;
      [simplify_eq; left; eauto using same_turn_state_refl|].
    assert (same_turn_state g
              (set_deck deck'
                 (set_current_player (mkPlayer p.(user) (p.(cards) ++ [c])) g)))
      as Hs.
    { by apply same_turn_state_set_deck,
        (same_turn_state_set_current_player p). }
    right. eexists. split_and!; [exact Hs|by eapply Hne|exact Hplay].
  - (* Discard *)
    unfold discard_select in Hplay.
    destruct (current_player g) as [p|] eqn:Hp;
      [|simplify_eq; left; eauto using same_turn_state_refl].
    case_bool_decide;
      [simplify_eq; left; eauto using same_turn_state_refl|].
    destruct (list_pop_at _ _) as [[c cards']|e];
      [|simplify_eq; left; eauto using same_turn_state_refl].
    assert (same_turn_state g
              (set_current_player (mkPlayer p.(user) cards') g)) as Hs.
    { by apply (same_turn_state_set_current_player p). }
    right. eexists. split_and!; [exact Hs|by eapply Hne|exact Hplay].
  - (* Replace *)
    unfold replace_select in Hplay.
    destruct (current_player g) as [p|] eqn:Hp;
      [|simplify_eq; left; eauto using same_turn_state_refl].
    destruct (list_pop_at _ _) as [[c cards']|e];
      [|simplify_eq; left; eauto using same_turn_state_refl].
    set (p1 := mkPlayer p.(user) cards') in *.
    assert (same_turn_state g (set_current_player p1 g)) as Hs1.
    { by apply (same_turn_state_set_current_player p). }
    destruct (draw_card_cases p1 (set_current_player p1 g).(deck))
      as [[_ Hd]|(deck' & c' & _ & Hd)]; rewrite Hd in Hplay;
      [simplify_eq; left; by eauto|].
    assert (same_turn_state g
              (set_deck deck'
                 (set_current_player (mkPlayer p1.(user) (p1.(cards) ++ [c']))
                    (set_current_player p1 g)))) as Hs.
    { apply same_turn_state_set_deck.
      eapply same_turn_state_trans; [exact Hs1|].
      apply (same_turn_state_set_current_player p1); [|done].
      by eapply current_player_set_current_player. }
    right. eexists. split_and!; [exact Hs|by eapply Hne|exact Hplay].
  - (* Stand *)
    unfold stand_button in Hplay.
    destruct (current_player g) as [p|] eqn:Hp;
      [|simplify_eq; left; eauto using same_turn_state_refl].
    right. exists g.
    split_and!; [apply same_turn_state_refl| |done].
    eapply Hne; [done|apply same_turn_state_refl].
  - (* Timeout *)
    unfold on_timeout in Hplay.
    destruct (current_player g) as [p|] eqn:Hp;
      [|simplify_eq; left; eauto using same_turn_state_refl].
    right. exists g.
    split_and!; [apply same_turn_state_refl| |done].
    eapply Hne; [done|apply same_turn_state_refl].
Qed.

Lemma next_index_cases g :
  0 ≤ g.(current_player_index) < Z.of_nat (length g.(players)) →
  (g.(current_player_index) + 1 = Z.of_nat (length g.(players)) ∧
   next_index g = 0) ∨
  (g.(current_player_index) + 1 < Z.of_nat (length g.(players)) ∧
   next_index g = g.(current_player_index) + 1).
Proof.
  intros Hidx. unfold next_index.
  destruct (decide (g.(current_player_index) + 1
                    = Z.of_nat (length g.(players)))) as [Heq|Hne].
  - left. split; [done|]. rewrite Heq. apply Z_mod_same_full.
  - right. split; [lia|]. apply Z.mod_small. lia.
Qed.

(** One action other than Junk, between two turns: a refusal changes
    nothing in the turn state; a completed turn is counted by the
    counters; the game-over message comes with the last turn of the last
    round, and only then. *)
Lemma play_in_rounds n R a g o g' :
  in_rounds n R g → a ≠ Junk → play a g = (o, g') → is_raised o = false →
  if is_game_over o then turns_before g + 1 = Z.of_nat n * R
  else in_rounds n R g' ∧
       turns_before g' = turns_before g + (if is_turn_completed o then 1 else 0).
Proof.
  intros (Hn & HR & Hsolo & Hfirst & Hidx & Hrc) Ha Hplay Hraised.
  destruct (play_not_junk _ _ _ _ Ha Hplay)
    as [[Hsame Ho]|(g1 & Hsame & Hne & Hproc)].
  - pose proof (same_turn_state_length _ _ Hsame) as Hn'.
    destruct Hsame as (_ & Hidx' & Hrc' & HR' & Hfirst' & Hsolo' & _).
    destruct Ho as [->|[e ->]]; [|done]. simpl.
    unfold in_rounds, turns_before.
    rewrite Hn', Hidx', Hrc', HR', Hfirst', Hsolo'. split_and!; try done; lia.
  - pose proof (same_turn_state_length _ _ Hsame) as Hn'.
    destruct Hsame as (_ & Hidx' & Hrc' & HR' & Hfirst' & Hsolo' & _).
    assert (g1.(solo_game) = false) as Hsolo1 by congruence.
    assert (g1.(first_turn) = false) as Hfirst1 by congruence.
    pose proof (proceed_to_next_player_shape g1 Hne Hsolo1) as Hshape.
    rewrite Hproc in Hshape. simpl in Hshape.
    destruct Hshape as (Hlen%(f_equal length) & _ & Hs & Ht & Hi & Hr & Hout).
    assert (0 ≤ g1.(current_player_index) < Z.of_nat (length g1.(players)))
      as Hidx1 by (rewrite Hidx', Hn', Hn; lia).
    unfold in_rounds, turns_before.
    destruct (next_index_cases g1 Hidx1) as [[Hwrap Hnext]|[Hwrap Hnext]].
    + assert (round_wraps g1 = true) as Hw.
      { unfold round_wraps. rewrite Hnext, Hfirst1. done. }
      rewrite Hw in Hr, Hout. simpl in Hout.
      case_bool_decide as Hover.
      * destruct Hout as [[Ho|Ho] _]; [|congruence]. rewrite Ho. nia.
      * destruct Hout as [-> Hf]. simpl.
        split_and!; [congruence..|lia|lia|lia|lia|nia].
    + assert (round_wraps g1 = false) as Hw.
      { unfold round_wraps. rewrite Hnext, Hfirst1.
        rewrite bool_decide_eq_false_2 by lia. done. }
      rewrite Hw in Hr, Hout. simpl in Hout.
      destruct Hout as [-> Hf]. simpl.
      split_and!; [congruence..|lia|lia|lia|lia|nia].
Qed.

Lemma turns_completed_cons o os :
  turns_completed (o :: os)
  = ((if is_turn_completed o then 1 else 0) + turns_completed os)%nat.
Proof.
  unfold turns_completed. rewrite filter_cons.
  destruct (is_turn_completed o); by case_decide.
Qed.

Lemma turns_before_bound n R g :
  in_rounds n R g → 0 ≤ turns_before g < Z.of_nat n * R.
Proof. intros (Hn & HR & _ & _ & Hidx & Hrc). unfold turns_before. nia. Qed.

(** A run without Junk and without exceptions, between two turns: the
    completed turns are counted by the counters, and the game-over message
    is the outcome of the turn that brings the count to [n * R]. *)
Lemma run_in_rounds n R acts g outs g' :
  in_rounds n R g → Forall (λ a, a ≠ Junk) acts →
  run acts g = (outs, g') → Forall (λ o, is_raised o = false) outs →
  turns_before g + Z.of_nat (turns_completed outs) ≤ Z.of_nat n * R ∧
  (Exists (λ o, is_game_over o = true) outs ↔
   turns_before g + Z.of_nat (turns_completed outs) = Z.of_nat n * R) ∧
  (¬ Exists (λ o, is_game_over o = true) outs →
   in_rounds n R g' ∧
   turns_before g' = turns_before g + Z.of_nat (turns_completed outs)).
Proof.
  revert g outs g'. induction acts as [|a acts IH]; intros g outs g' Hg Hacts Hrun Hok.
  - simpl in Hrun. simplify_eq. pose proof (turns_before_bound _ _ _ Hg).
    unfold turns_completed. simpl. split_and!; [lia| |split; [done|lia]].
    split; [by intros ?%Exists_nil|lia].
  - apply Forall_cons in Hacts as [Ha Hacts]. simpl in Hrun.
    destruct (play a g) as [o g1] eqn:Hplay.
    destruct (is_game_over o) eqn:Hover.
    + simplify_eq. apply Forall_cons in Hok as [Ho _].
      pose proof (play_in_rounds _ _ _ _ _ _ Hg Ha Hplay Ho) as Hstep.
      rewrite Hover in Hstep.
      rewrite turns_completed_cons. change (turns_completed []) with 0%nat.
      assert (is_turn_completed o = true) as -> by (by destruct o).
      split_and!; [lia| |].
      * split; [lia|]. intros _. by apply Exists_cons_hd.
      * intros []. by apply Exists_cons_hd.
    + destruct (run acts g1) as [os g2] eqn:Hrun1. simplify_eq.
      apply Forall_cons in Hok as [Ho Hok].
      pose proof (play_in_rounds _ _ _ _ _ _ Hg Ha Hplay Ho) as Hstep.
      rewrite Hover in Hstep. destruct Hstep as [Hg1 Hcount].
      destruct (IH _ _ _ Hg1 Hacts Hrun1 Hok) as (Hle & Hiff & Hlast).
      rewrite turns_completed_cons.
      rewrite Exists_cons, Hover.
      split_and!.
      * destruct (is_turn_completed o); lia.
      * split.
        -- intros [?|Hex]; [done|]. apply Hiff in Hex.
           destruct (is_turn_completed o); lia.
        -- intros Heq. right. apply Hiff.
           destruct (is_turn_completed o); lia.
      * intros Hno. destruct Hlast as [Hg2 Hcount2]; [tauto|].
        split; [done|]. destruct (is_turn_completed o); lia.
Qed.

(** *** From the lobby to the first turn *)

Lemma user_ids_init us : user_ids (Player_init <$> us) = us.
Proof.
  unfold user_ids. induction us as [|u us IH]; [done|].
  rewrite !fmap_cons, IH. done.
Qed.

(** The lobby after distinct users, at most eight, have joined. *)
Lemma lobby_players R nc us :
  NoDup us → (length us ≤ 8)%nat →
  lobby R nc us
  = mkGame (Player_init <$> us) false (-1) [] R nc false 0 0 false.
Proof.
  unfold lobby. induction us as [|u us IH] using rev_ind; intros Hnd Hlen.
  - done.
  - rewrite length_app in Hlen. simpl in Hlen.
    apply NoDup_app in Hnd as (Hnd & Hu & _).
    rewrite foldl_snoc, IH by (done || lia).
    unfold play_game_button. simpl. rewrite user_ids_init.
    rewrite bool_decide_eq_false_2.
    2:{ intros Hin. apply (Hu u Hin), list_elem_of_here. }
    rewrite bool_decide_eq_false_2 by (rewrite length_fmap; lia).
    simpl. unfold set_players. simpl. by rewrite fmap_app.
Qed.

Lemma draw_cards_user n p d :
  (draw_cards n p d).1.2.(user) = p.(user).
Proof.
  revert p d. induction n as [|n IH]; intros p d; simpl; [done|].
  destruct (draw_card_cases p d) as [[-> ->]|(d' & c & -> & ->)]; [done|].
  by rewrite IH.
Qed.

Lemma deal_length n ps d : length (deal n ps d).1.2 = length ps.
Proof.
  revert d. induction ps as [|p ps IH]; intros d; simpl; [done|].
  destruct (draw_cards n p d) as [[[e|] p'] d']; simpl; [done|].
  specialize (IH d'). destruct (deal n ps d') as [[e ps'] d'']. simpl in *.
  by rewrite IH.
Qed.

(** Starting the game from a lobby of [us]: either the deck runs out while
    the hands are dealt, or the first turn is announced with the counters
    at round 1 and index 0; the first call of [proceed_to_next_player] does
    not count a round. The solo flag is set exactly for a single player. *)
Lemma start_game_from_lobby R nc us u rd rp :
  NoDup us → (length us ≤ 8)%nat → u ∈ us →
  let r := start_game_button u rd rp (lobby R nc us) in
  (∃ e, r.1 = Raised e) ∨
  (r.1 = TurnStarts ∧
   length r.2.(players) = length us ∧
   r.2.(total_rounds) = R ∧
   r.2.(rounds_completed) = 1 ∧
   r.2.(current_player_index) = 0 ∧
   r.2.(first_turn) = false ∧
   r.2.(solo_game) = bool_decide (length us = 1%nat)).
Proof.
  intros Hnd Hlen Hu. rewrite lobby_players by done.
  unfold start_game_button. simpl. rewrite user_ids_init.
  rewrite (bool_decide_eq_true_2 _ Hu). simpl.
  assert (length us ≠ 0%nat) as Hne.
  { destruct us; [by apply elem_of_nil in Hu|done]. }
  rewrite bool_decide_eq_true_2 by (rewrite length_fmap; lia).
  pose proof (deal_length (Z.to_nat nc)
                (shuffle rp (Player_init <$> us)) (generate_deck rd)) as Hdl.
  rewrite shuffle_length, length_fmap in Hdl.
  destruct (deal _ _ _) as [[[e|] ps] d]; simpl in *; [left; by eauto|].
  right. unfold proceed_to_next_player. simpl.
  rewrite Hdl. rewrite bool_decide_eq_false_2 by done.
  rewrite Z.mod_0_l by lia. simpl. rewrite Hdl.
  case_bool_decide; simpl; by rewrite ?Hdl.
Qed.

(** C7. A game of three players over three rounds, played without Junk
    and without an exception (the deck never runs out): the game starts at
    round 1 with the turn index 0, the first announcement not counting a
    round; at most nine turns are completed; the game-over message is sent
    exactly when the ninth turn is completed. The round counter goes up by
    one exactly when [proceed_to_next_player] moves the index to 0 on a
    turn that is not the first. *)
Theorem three_players_three_rounds
    (nc : Z) (us : list user_handle) (u : user_handle) (rd rp : list nat)
    (acts : list action) (g0 g : CorelliaGameView) (outs : list outcome) :
  NoDup us → length us = 3%nat → u ∈ us →
  start_game_button u rd rp (lobby 3 nc us) = (TurnStarts, g0) →
  Forall (λ a, a ≠ Junk) acts →
  run acts g0 = (outs, g) →
  Forall (λ o, is_raised o = false) outs →
  (g0.(rounds_completed) = 1 ∧ g0.(current_player_index) = 0) ∧
  (turns_completed outs ≤ 9)%nat ∧
  (Exists (λ o, is_game_over o = true) outs ↔ turns_completed outs = 9%nat) ∧
  (∀ g1, g1.(players) ≠ [] →
     let g2 := (proceed_to_next_player g1).2 in
     g2.(current_player_index)
     = (g1.(current_player_index) + 1) `mod` Z.of_nat (length g1.(players)) ∧
     g2.(rounds_completed)
     = g1.(rounds_completed)
       + (if bool_decide (g2.(current_player_index) = 0)
             && negb g1.(first_turn)
          then 1 else 0)).
Proof.
  intros Hnd Hlen Hu Hstart Hacts Hrun Hok.
  pose proof (start_game_from_lobby 3 nc us u rd rp Hnd ltac:(lia) Hu) as Hs.
  rewrite Hstart in Hs. simpl in Hs.
  destruct Hs as [[e [=]]|(_ & Hn & HR & Hrc & Hidx & Hfirst & Hsolo)].
  rewrite Hlen in Hn, Hsolo. simpl in Hsolo.
  assert (in_rounds 3 3 g0) as Hg0.
  { unfold in_rounds. rewrite Hn, HR, Hrc, Hidx, Hfirst, Hsolo.
    split_and!; try done; lia. }
  destruct (run_in_rounds _ _ _ _ _ _ Hg0 Hacts Hrun Hok) as (Hle & Hiff & _).
  assert (turns_before g0 = 0) as Hzero.
  { unfold turns_before. rewrite Hrc, Hidx. lia. }
  rewrite Hzero in Hle, Hiff.
  split_and!; [done..|lia| |].
  - rewrite Hiff. lia.
  - intros g1 Hne. apply (proceed_to_next_player_counters g1 Hne).
Qed.

Lemma three_players_three_rounds_witness :
  let us := [Human 1; Human 2; Human 3] in
  let g0 := (start_game_button (Human 1) [] [] (lobby 3 2 us)).2 in
  let outs := (run (replicate 9 Stand) g0).1 in
  turns_completed outs = 9%nat ∧
  Exists (λ o, is_game_over o = true) outs.
Proof.
  intros us g0 outs.
  destruct (three_players_three_rounds 2 us (Human 1) [] []
              (replicate 9 Stand) g0 (run (replicate 9 Stand) g0).2 outs)
    as (_ & _ & Hiff & _).
  - apply (bool_decide_unpack _). vm_compute. reflexivity.
  - reflexivity.
  - apply (bool_decide_unpack _). vm_compute. reflexivity.
  - vm_compute. reflexivity.
  - apply (bool_decide_unpack _). vm_compute. reflexivity.
  - vm_compute. reflexivity.
  - apply (bool_decide_unpack _). vm_compute. reflexivity.
  - assert (turns_completed outs = 9%nat) as H9 by (vm_compute; reflexivity).
    split; [exact H9|]. apply Hiff. exact H9.
Defined.

(** ** Junk *)

Lemma deal_user_ids n ps d : user_ids (deal n ps d).1.2 = user_ids ps.
Proof.
  revert d. induction ps as [|p ps IH]; intros d; simpl; [done|].
  pose proof (draw_cards_user n p d) as Hu.
  destruct (draw_cards n p d) as [[[e|] p'] d']; simpl in *.
  - unfold user_ids. simpl. by rewrite Hu.
  - specialize (IH d'). destruct (deal n ps d') as [[e ps'] d'']. simpl in *.
    unfold user_ids in *. simpl. by rewrite Hu, IH.
Qed.

(** The players of a started game are the users of the lobby, shuffled. *)
Lemma start_game_user_ids R nc us u rd rp :
  NoDup us → (length us ≤ 8)%nat → u ∈ us →
  let r := start_game_button u rd rp (lobby R nc us) in
  r.1 = TurnStarts → user_ids r.2.(players) ≡ₚ us.
Proof.
  intros Hnd Hlen Hu. rewrite lobby_players by done.
  unfold start_game_button. simpl. rewrite user_ids_init.
  rewrite (bool_decide_eq_true_2 _ Hu). simpl.
  assert (length us ≠ 0%nat) as Hne.
  { destruct us; [by apply elem_of_nil in Hu|done]. }
  rewrite bool_decide_eq_true_2 by (rewrite length_fmap; lia).
  pose proof (deal_user_ids (Z.to_nat nc)
                (shuffle rp (Player_init <$> us)) (generate_deck rd)) as Hdl.
  pose proof (deal_length (Z.to_nat nc)
                (shuffle rp (Player_init <$> us)) (generate_deck rd)) as Hdn.
  rewrite shuffle_length, length_fmap in Hdn.
  destruct (deal _ _ _) as [[[e|] ps] d]; simpl in *; [done|].
  intros _. unfold proceed_to_next_player. simpl.
  rewrite Hdn. rewrite bool_decide_eq_false_2 by done.
  rewrite Z.mod_0_l by lia. simpl.
  assert (user_ids ps ≡ₚ us) as Hps.
  { rewrite Hdl. unfold user_ids. by rewrite shuffle_perm, user_ids_init. }
  by case_bool_decide.
Qed.

Lemma play_in_game us a g o g' :
  in_game us g → a ≠ Junk → play a g = (o, g') → in_game us g'.
Proof.
  intros (Hus & Hsolo & Hidx) Ha Hplay.
  destruct (play_not_junk _ _ _ _ Ha Hplay)
    as [[Hsame Ho]|(g1 & Hsame & Hne & Hproc)].
  - destruct Hsame as (Hu & Hi & _ & _ & _ & Hs & _).
    unfold in_game. by rewrite Hu, Hi, Hs.
  - pose proof (same_turn_state_length _ _ Hsame) as Hlen.
    destruct Hsame as (Hu & Hi & _ & _ & _ & Hs & _).
    assert (g1.(solo_game) = false) as Hsolo1 by congruence.
    pose proof (proceed_to_next_player_shape g1 Hne Hsolo1) as Hshape.
    rewrite Hproc in Hshape. simpl in Hshape.
    destruct Hshape as (Hps & _ & Hs' & _ & Hi' & _).
    unfold in_game. rewrite Hps, Hu, Hs', Hi'. split; [done|split; [done|]].
    unfold next_index. rewrite Hlen.
    assert (length (players g) = length us) as ->.
    { rewrite <-Hus. unfold user_ids. by rewrite length_fmap. }
    apply Z.mod_pos_bound. lia.
Qed.

Lemma run_in_game us acts g outs g' :
  in_game us g → Forall (λ a, a ≠ Junk) acts → run acts g = (outs, g') →
  in_game us g'.
Proof.
  revert g outs g'. induction acts as [|a acts IH]; intros g outs g' Hg Hacts Hrun.
  - simpl in Hrun. by simplify_eq.
  - apply Forall_cons in Hacts as [Ha Hacts]. simpl in Hrun.
    destruct (play a g) as [o g1] eqn:Hplay.
    pose proof (play_in_game _ _ _ _ _ Hg Ha Hplay) as Hg1.
    destruct (is_game_over o); [by simplify_eq|].
    destruct (run acts g1) as [os g2] eqn:Hrun1. simplify_eq. eauto.
Qed.

(** The showdown of a single player in a game that is not a solo game:
    this player's hand is the only one evaluated, and the view is as it
    was. *)
Lemma end_game_single g p :
  g.(solo_game) = false → g.(players) = [p] →
  end_game g =
    (match evaluate_hand p with
     | Ok (hand_value, hand_type, total) =>
         let eh := (hand_value, p, hand_type, total) in
         GameOver (FinalHands [eh] [eh])
     | Raise e => Raised e
     end, g).
Proof.
  intros Hsolo Hp. unfold end_game, evaluate_all. rewrite Hsolo, Hp. simpl.
  destruct (evaluate_hand p) as [[[k t] total]|e]; simpl; [|done].
  rewrite filter_cons. simpl. by rewrite decide_True.
Qed.

(** C8. A game that two users started, at any point reached by actions
    other than Junk before the game-over message: the solo flag is unset,
    as it was decided from the two players at the start. When the player
    whose turn it is junks, [end_game] runs at once, whatever the round
    counter says: only the other player is left and is the only one
    evaluated, no player is added and no card is drawn for one, and the
    game-over message lists this single hand whenever it has a card. *)
Theorem junk_in_two_player_game
    (R nc : Z) (u1 u2 u : user_handle) (rd rp : list nat)
    (acts : list action) (g0 g : CorelliaGameView) (outs : list outcome) :
  u1 ≠ u2 → u ∈ [u1; u2] →
  start_game_button u rd rp (lobby R nc [u1; u2]) = (TurnStarts, g0) →
  Forall (λ a, a ≠ Junk) acts →
  run acts g0 = (outs, g) →
  Forall (λ o, is_game_over o = false) outs →
  g0.(solo_game) = false ∧ g.(solo_game) = false ∧
  ∃ leaver stayer,
    current_player g = Some leaver ∧
    g.(players) ≡ₚ [leaver; stayer] ∧
    [leaver.(user); stayer.(user)] ≡ₚ [u1; u2] ∧
    junk_button g = end_game (set_players [stayer] g) ∧
    (junk_button g).2 = set_players [stayer] g ∧
    (junk_button g).1 =
      match evaluate_hand stayer with
      | Ok (hand_value, hand_type, total) =>
          let eh := (hand_value, stayer, hand_type, total) in
          GameOver (FinalHands [eh] [eh])
      | Raise e => Raised e
      end ∧
    (stayer.(cards) ≠ [] → is_game_over (junk_button g).1 = true).
Proof.
  intros Hne Hu Hstart Hacts Hrun _.
  assert (NoDup [u1; u2]) as Hnd.
  { repeat constructor; [|apply not_elem_of_nil].
    rewrite elem_of_cons. intros [?|?%elem_of_nil]; done. }
  pose proof (start_game_from_lobby R nc [u1; u2] u rd rp Hnd
                ltac:(simpl; lia) Hu) as Hs.
  pose proof (start_game_user_ids R nc [u1; u2] u rd rp Hnd
                ltac:(simpl; lia) Hu) as Hus.
  rewrite Hstart in Hs, Hus. simpl in Hs, Hus. specialize (Hus eq_refl).
  destruct Hs as [[e [=]]|(_ & Hn & _ & _ & Hidx & _ & Hsolo)].
  simpl in Hn, Hsolo.
  assert (in_game (user_ids g0.(players)) g0) as Hg0.
  { unfold in_game. rewrite Hidx, Hsolo. unfold user_ids.
    rewrite length_fmap, Hn. split_and!; [done..|lia|lia]. }
  pose proof (run_in_game _ _ _ _ _ Hg0 Hacts Hrun) as (Hu' & Hsolo' & Hi').
  assert (length g.(players) = 2%nat) as Hlen.
  { apply (f_equal length) in Hu'. unfold user_ids in Hu'.
    rewrite !length_fmap in Hu'. lia. }
  unfold user_ids in Hi'. rewrite length_fmap, Hn in Hi'.
  rewrite <-Hu' in Hus.
  split; [done|]. split; [done|].
  destruct g.(players) as [|p [|q [|]]] eqn:Hps; try done.
  assert (∀ stayer, end_game (set_players [stayer] g)
            = (match evaluate_hand stayer with
               | Ok (hand_value, hand_type, total) =>
                   let eh := (hand_value, stayer, hand_type, total) in
                   GameOver (FinalHands [eh] [eh])
               | Raise e => Raised e
               end, set_players [stayer] g)) as Hend.
  { intros stayer. by apply end_game_single. }
  assert (∀ stayer, stayer.(cards) ≠ [] →
            is_game_over (end_game (set_players [stayer] g)).1 = true) as Hover.
  { intros stayer Hc. rewrite Hend. simpl.
    destruct (evaluate_hand_ok stayer Hc) as (k & t & total & ->).
    done. }
  assert (g.(current_player_index) = 0 ∨ g.(current_player_index) = 1)
    as [Hi|Hi] by lia.
  - exists p, q.
    assert (junk_button g = end_game (set_players [q] g)) as Hj.
    { unfold junk_button, current_player. rewrite Hi, Hps. done. }
    unfold current_player. rewrite Hi, Hps, Hj, Hend. simpl.
    split_and!; try done. intros Hc. specialize (Hover q Hc).
    by rewrite Hend in Hover.
  - exists q, p.
    assert (junk_button g = end_game (set_players [p] g)) as Hj.
    { unfold junk_button, current_player. rewrite Hi, Hps. done. }
    unfold current_player. rewrite Hi, Hps, Hj, Hend. simpl.
    split_and!; try done.
    + apply perm_swap.
    + etrans; [apply perm_swap|exact Hus].
    + intros Hc. specialize (Hover p Hc). by rewrite Hend in Hover.
Qed.

Lemma junk_in_two_player_game_witness :
  let g0 := (start_game_button (Human 1) [4; 9]%nat [1]%nat
               (lobby 3 2 [Human 1; Human 2])).2 in
  let g := (run [Draw; Stand; Discard 0] g0).2 in
  ∃ stayer, (junk_button g).2.(players) = [stayer] ∧
            is_game_over (junk_button g).1 = true.
Proof.
  intros g0 g.
  destruct (junk_in_two_player_game 3 2 (Human 1) (Human 2) (Human 1)
              [4; 9]%nat [1]%nat
              [Draw; Stand; Discard 0] g0 g (run [Draw; Stand; Discard 0] g0).1)
    as (_ & _ & leaver & stayer & _ & _ & _ & _ & Hg & _ & Hover).
  - discriminate.
  - apply (bool_decide_unpack _). vm_compute. reflexivity.
  - vm_compute. reflexivity.
  - apply (bool_decide_unpack _). vm_compute. reflexivity.
  - vm_compute. reflexivity.
  - apply (bool_decide_unpack _). vm_compute. reflexivity.
  - exists stayer. split.
    + rewrite Hg. reflexivity.
    + apply Hover. intros Hnil.
      assert (length (cards_held (junk_button g).2.(players)) = 0%nat) as Hl.
      { rewrite Hg. simpl. unfold cards_held. simpl. rewrite Hnil. reflexivity. }
      vm_compute in Hl. discriminate.
Defined.

(** ** The hand invariant *)

(** The replace button on the last card of a hand when the deck is empty:
    the card is popped, then [draw_card] raises, and the hand stays empty.
    [Player.replace_card] in the same situation returns [False] and keeps
    the card. *)
Lemma replace_select_empty_deck g p c :
  current_player g = Some p → p.(cards) = [c] → g.(deck) = [] →
  replace_select 0 g
  = (Raised ValueError, set_current_player (mkPlayer p.(user) []) g) ∧
  replace_card p c g.(deck) = Ok (false, p, g.(deck)).
Proof.
  intros Hp Hc Hd. unfold replace_select, replace_card.
  rewrite Hp, Hc. simpl. rewrite Hd. simpl. split; [done|].
  by rewrite andb_false_r.
Qed.

(** C6 fails on the code. Eight players start a game of three rounds with
    five cards each, which leaves 22 cards in the deck. After 22 turns
    that draw a card the deck is empty, and the game is still in round 3.
    The player whose turn it is then presses the replace button of the
    first card seven times: each press pops the card and raises on the
    draw, and the game is in progress with this player's hand empty. *)
Theorem replace_on_empty_deck_empties_hand :
  let start := start_game_button (Human 0) [] []
                 (lobby 3 5 (Human <$> seq 0 8)) in
  let r := run (replicate 22 Draw ++ replicate 7 (Replace 0)) start.2 in
  start.1 = TurnStarts ∧
  Forall (λ p, length p.(cards) = 5%nat) start.2.(players) ∧
  Forall (λ o, is_game_over o = false) r.1 ∧
  r.2.(rounds_completed) ≤ r.2.(total_rounds) ∧
  r.2.(deck) = [] ∧
  current_player r.2 = Some (mkPlayer (Human 7) []) ∧
  Exists (λ p, p.(cards) = []) r.2.(players).
Proof.
  intros start r.
  assert (start.1 = TurnStarts) as H1 by (vm_compute; reflexivity).
  assert (r.2.(deck) = []) as H2 by (vm_compute; reflexivity).
  assert (current_player r.2 = Some (mkPlayer (Human 7) [])) as H3
    by (vm_compute; reflexivity).
  split_and!; [exact H1| | | |exact H2|exact H3|].
  - apply (bool_decide_unpack _). vm_compute. reflexivity.
  - apply (bool_decide_unpack _). vm_compute. reflexivity.
  - vm_compute. discriminate.
  - apply Exists_exists. exists (mkPlayer (Human 7) []). split; [|done].
    unfold current_player in H3. case_bool_decide; [|done].
    by eapply list_elem_of_lookup_2.
Qed.

(** * Further properties *)

(** ** The order of the ranking keys *)

Lemma num_ltb_irrefl a : num_ltb a a = false.
Proof. destruct a; simpl; [done|]. apply bool_decide_eq_false. lia. Qed.

Lemma num_ltb_trans a b c :
  num_ltb a b = true → num_ltb b c = true → num_ltb a c = true.
Proof.
  destruct a, b, c; simpl; try done.
  rewrite !bool_decide_eq_true. lia.
Qed.

Lemma num_ltb_total a b : a = b ∨ num_ltb a b = true ∨ num_ltb b a = true.
Proof.
  destruct a as [|x], b as [|y]; simpl; auto.
  rewrite !bool_decide_eq_true.
  destruct (Z.lt_trichotomy x y) as [?|[->|?]]; auto.
Qed.

Lemma key_ltb_irrefl k : key_ltb k k = false.
Proof. induction k as [|a k IH]; [done|]. by rewrite key_ltb_cons_eq. Qed.

Lemma key_ltb_trans k1 k2 k3 :
  key_ltb k1 k2 = true → key_ltb k2 k3 = true → key_ltb k1 k3 = true.
Proof.
  revert k2 k3. induction k1 as [|a k1 IH]; intros [|b k2] [|c k3]; try done.
  simpl. destruct (decide (a = b)) as [->|Hab].
  - destruct (decide (b = c)) as [->|Hbc]; [apply IH|done].
  - destruct (decide (b = c)) as [->|Hbc].
    + by rewrite decide_False.
    + intros H1 H2. pose proof (num_ltb_trans _ _ _ H1 H2) as H3.
      destruct (decide (a = c)) as [->|]; [|done].
      by rewrite num_ltb_irrefl in H3.
Qed.

Lemma key_ltb_total k1 k2 :
  k1 = k2 ∨ key_ltb k1 k2 = true ∨ key_ltb k2 k1 = true.
Proof.
  revert k2. induction k1 as [|a k1 IH]; intros [|b k2]; simpl; auto.
  destruct (decide (a = b)) as [->|Hab].
  - rewrite decide_True by done.
    destruct (IH k2) as [->|[?|?]]; auto.
  - rewrite decide_False by done.
    destruct (num_ltb_total a b) as [?|[?|?]]; [done|auto..].
Qed.

Lemma key_ltb_asym k1 k2 : key_ltb k1 k2 = true → key_ltb k2 k1 = false.
Proof.
  intros H12. destruct (key_ltb k2 k1) eqn:H21; [|done].
  pose proof (key_ltb_trans _ _ _ H12 H21) as H.
  by rewrite key_ltb_irrefl in H.
Qed.

(** The keys that [end_game] sorts by and compares are strictly totally
    ordered by Python's tuple comparison: of two keys one is strictly
    smaller or they are equal, never both, and the comparison is
    transitive. So the sorted list of a showdown has a least key, and a tie
    is an equality of keys. *)
Theorem key_ltb_strict_total_order (k1 k2 k3 : list num) :
  (k1 = k2 ∨ key_ltb k1 k2 = true ∨ key_ltb k2 k1 = true) ∧
  (k1 = k2 → key_ltb k1 k2 = false) ∧
  (key_ltb k1 k2 = true → key_ltb k2 k1 = false) ∧
  (key_ltb k1 k2 = true → key_ltb k2 k3 = true → key_ltb k1 k3 = true).
Proof.
  split_and!.
  - apply key_ltb_total.
  - intros ->. apply key_ltb_irrefl.
  - apply key_ltb_asym.
  - apply key_ltb_trans.
Qed.

(** ** More on the hand evaluation *)

(** The evaluation sees only the cards, in any order. *)
Lemma evaluate_hand_cards (p1 p2 : Player) :
  p1.(cards) ≡ₚ p2.(cards) → evaluate_hand p1 = evaluate_hand p2.
Proof.
  intros Hl. unfold evaluate_hand.
  rewrite (sum_perm _ _ Hl), (counts_perm _ _ Hl), !abs_counts_fmap.
  rewrite (counts_perm (Z.abs <$> cards p1) (Z.abs <$> cards p2))
    by (by rewrite Hl).
  rewrite (sorted_perm _ _ Hl), (Permutation_length Hl).
  rewrite (py_min_perm (Z.abs <$> cards p1) (Z.abs <$> cards p2))
    by (by rewrite Hl).
  rewrite (py_min_perm (Z.abs <$> filter _ (cards p1))
             (Z.abs <$> filter (λ c, c ≠ 0) (cards p2))) by (by rewrite Hl).
  rewrite (sum_perm (filter _ (cards p1)) (filter (λ c, 0 < c) (cards p2)))
    by (by rewrite Hl).
  rewrite (neg_max_or_neg_inf_perm (filter _ (cards p1))
             (filter (λ c, 0 < c) (cards p2))) by (by rewrite Hl).
  by rewrite (list_to_set_perm_L (cards p1) (cards p2) Hl).
Qed.

Lemma row_rank_inj t1 t2 : row_rank t1 = row_rank t2 → t1 = t2.
Proof. by destruct t1, t2. Qed.

Lemma row_rank_nulrhek t : t ≠ Nulrhek → row_rank t < 10.
Proof. destruct t; simpl; (done || lia). Qed.

Lemma highest_priority_row_not_nulrhek cards row :
  highest_priority_row cards = Some row → row ≠ Nulrhek.
Proof.
  unfold highest_priority_row. intros Hrow%head_Some_elem_of.
  apply list_elem_of_filter in Hrow as [Hc _]. by intros ->.
Qed.

(** The shape of every evaluation: a category of the table with its rank
    in front of the key for a zero total, and the Nulrhek key otherwise. *)
Lemma evaluate_hand_cases (player : Player) :
  player.(cards) ≠ [] →
  (sum player.(cards) = 0 ∧
   ∃ type tie, type ≠ Nulrhek ∧
     evaluate_hand player = Ok (Int (row_rank type) :: tie, type, 0)) ∨
  (sum player.(cards) ≠ 0 ∧
   ∃ tie,
     evaluate_hand player
     = Ok (Int 10 :: Int (Z.abs (sum player.(cards)))
             :: Int (if bool_decide (0 < sum player.(cards)) then 0 else 1)
             :: tie,
           Nulrhek, sum player.(cards))).
Proof.
  intros Hne.
  destruct (decide (sum player.(cards) = 0)) as [Hsum|Hsum].
  - left. split; [done|].
    rewrite (evaluate_hand_zero _ Hsum). cbv zeta.
    assert (∃ m, py_min (Z.abs <$> player.(cards)) = Ok m) as [m Hm].
    { apply py_min_ok. by destruct player.(cards). }
    rewrite Hm.
    destruct (neg_max_or_neg_inf_ok (filter (λ c, 0 < c) player.(cards)))
      as [x ->].
    destruct (decide (row_condition PureSabacc _));
      [by exists PureSabacc, []|].
    destruct (decide (row_condition FullSabacc _));
      [by exists FullSabacc, []|].
    destruct (decide (row_condition YeeHaa _)) as [Hy|].
    { destruct (py_min_ok (Z.abs <$> filter (λ c, c ≠ 0) player.(cards)))
        as [m' ->]; [|by exists YeeHaa, [Int m']].
      pose proof (yee_haa_nonzero _ Hy). by destruct (filter _ _). }
    destruct (decide (row_condition RuleOfTwo _));
      [by exists RuleOfTwo, [Int m]|].
    destruct (decide (row_condition SabaccPair _));
      [by exists SabaccPair, [Int m]|].
    by eexists Sabacc, _.
  - right. split; [done|].
    destruct (evaluate_hand_nonzero _ Hsum) as [x ->]. by eexists.
Qed.

(** A hand of a better category beats every hand of a worse category,
    whatever the tie-breakers are. In particular every hand that totals
    zero beats every hand that does not. *)
Theorem better_category_wins (p1 p2 : Player) :
  p1.(cards) ≠ [] → p2.(cards) ≠ [] →
  ∃ k1 t1 k2 t2,
    evaluate_hand p1 = Ok (k1, t1, sum p1.(cards)) ∧
    evaluate_hand p2 = Ok (k2, t2, sum p2.(cards)) ∧
    (row_rank t1 < row_rank t2 →
       key_ltb k1 k2 = true ∧ key_ltb k2 k1 = false) ∧
    (sum p1.(cards) = 0 → sum p2.(cards) ≠ 0 →
       key_ltb k1 k2 = true ∧ key_ltb k2 k1 = false).
Proof.
  intros Hne1 Hne2.
  assert (∀ r1 r2 tie1 tie2, r1 < r2 →
            key_ltb (Int r1 :: tie1) (Int r2 :: tie2) = true ∧
            key_ltb (Int r2 :: tie2) (Int r1 :: tie1) = false) as Hlt.
  { intros r1 r2 tie1 tie2 Hr.
    rewrite !key_ltb_cons_ne by (intros [=]; lia). simpl.
    split; [apply bool_decide_eq_true|apply bool_decide_eq_false]; lia. }
  destruct (evaluate_hand_cases p1 Hne1)
    as [(Hs1 & t1 & tie1 & Ht1 & ->)|(Hs1 & tie1 & ->)];
  destruct (evaluate_hand_cases p2 Hne2)
    as [(Hs2 & t2 & tie2 & Ht2 & ->)|(Hs2 & tie2 & ->)];
    rewrite ?Hs1, ?Hs2; eexists _, _, _, _;
    (split; [reflexivity|]); (split; [reflexivity|]); split.
  - intros Hr. by apply Hlt.
  - done.
  - intros Hr. by apply (Hlt _ 10).
  - intros _ _. apply (Hlt _ 10). by apply row_rank_nulrhek.
  - intros Hr. apply row_rank_nulrhek in Ht2. simpl in Hr. lia.
  - done.
  - simpl. lia.
  - done.
Qed.

Lemma better_category_wins_witness :
  ∃ k1 t1 k2 t2,
    evaluate_hand (mkPlayer (Human 1) [7; -4; -3]) = Ok (k1, t1, 0) ∧
    evaluate_hand (mkPlayer (Human 2) [1]) = Ok (k2, t2, 1) ∧
    key_ltb k1 k2 = true.
Proof.
  destruct (better_category_wins (mkPlayer (Human 1) [7; -4; -3])
              (mkPlayer (Human 2) [1]))
    as (k1 & t1 & k2 & t2 & H1 & H2 & _ & Hz); [simpl; discriminate..|].
  exists k1, t1, k2, t2. split; [exact H1|]. split; [exact H2|].
  apply Hz; [reflexivity|discriminate].
Defined.

(** Hands whose keys are equal, which is how [end_game] finds a tie, have
    the same hand type and the same total. *)
Theorem tie_same_type_and_total (p1 p2 : Player) :
  p1.(cards) ≠ [] → p2.(cards) ≠ [] →
  ∃ e1 e2,
    evaluate_hand p1 = Ok e1 ∧ evaluate_hand p2 = Ok e2 ∧
    (eval_key e1 = eval_key e2 → e1.1.2 = e2.1.2 ∧ e1.2 = e2.2).
Proof.
  intros Hne1 Hne2.
  destruct (evaluate_hand_cases p1 Hne1)
    as [(Hs1 & t1 & tie1 & Ht1 & ->)|(Hs1 & tie1 & ->)];
  destruct (evaluate_hand_cases p2 Hne2)
    as [(Hs2 & t2 & tie2 & Ht2 & ->)|(Hs2 & tie2 & ->)];
    eexists _, _; (split; [reflexivity|]); (split; [reflexivity|]);
    unfold eval_key; simpl.
  - intros [= Hr _]. by apply row_rank_inj in Hr as ->.
  - intros [= Hr _]. apply row_rank_nulrhek in Ht1. lia.
  - intros [= Hr _]. apply row_rank_nulrhek in Ht2. lia.
  - intros [= Habs Hsign _]. split; [done|].
    repeat case_bool_decide; lia.
Qed.

Lemma tie_same_type_and_total_witness :
  ∃ e1 e2,
    evaluate_hand (mkPlayer (Human 1) [2; -2]) = Ok e1 ∧
    evaluate_hand (mkPlayer (Human 2) [-2; 2]) = Ok e2 ∧
    e1.1.2 = e2.1.2 ∧ e1.2 = e2.2.
Proof.
  destruct (tie_same_type_and_total (mkPlayer (Human 1) [2; -2])
              (mkPlayer (Human 2) [-2; 2]))
    as (e1 & e2 & H1 & H2 & Htie); [simpl; discriminate..|].
  exists e1, e2. split; [exact H1|]. split; [exact H2|].
  apply Htie. vm_compute in H1, H2.
  injection H1 as <-. injection H2 as <-. reflexivity.
Defined.

(** A zero together with the two cards [+v] and [-v], in any order, is a
    Yee-Haa with the tie-breaker [abs(v)], not a Sabacc Pair: the Yee-Haa
    test counts absolute values, so the two cards count as its pair. *)
Theorem zero_and_opposite_pair_is_yee_haa (player : Player) (v : Z) :
  v ≠ 0 → player.(cards) ≡ₚ [v; - v; 0] →
  evaluate_hand player = Ok ([Int 3; Int (Z.abs v)], YeeHaa, 0).
Proof.
  intros Hv Hcards.
  rewrite (evaluate_hand_cards player (mkPlayer player.(user) [v; - v; 0]))
    by done.
  rewrite evaluate_hand_zero by (unfold sum; simpl; lia). cbv zeta. simpl cards.
  rewrite decide_False by (by intros [? _]).
  rewrite decide_False by (by intros ?%Permutation_length).
  rewrite decide_True.
  - rewrite !filter_cons, filter_nil.
    rewrite !decide_True, decide_False by lia. simpl.
    by rewrite Z.abs_opp, Z.min_id.
  - split.
    + unfold occurrences. rewrite !filter_cons, filter_nil.
      by rewrite !decide_False, decide_True by lia.
    + apply Exists_exists. exists (Z.abs v). split; [apply list_elem_of_here|].
      split; [lia|].
      unfold abs_occurrences. rewrite !filter_cons, filter_nil.
      rewrite !decide_True, decide_False by lia. done.
Qed.

Lemma zero_and_opposite_pair_is_yee_haa_witness :
  evaluate_hand (mkPlayer (Human 1) [0; -10; 10])
  = Ok ([Int 3; Int (Z.abs 10)], YeeHaa, 0).
Proof.
  apply (zero_and_opposite_pair_is_yee_haa (mkPlayer (Human 1) [0; -10; 10]) 10).
  - discriminate.
  - apply (bool_decide_unpack _). vm_compute. reflexivity.
Defined.

(** ** Totals of hands *)

Lemma sum_app l k : sum (l ++ k) = sum l + sum k.
Proof.
  induction l as [|c l IH]; [unfold sum at 2; simpl; lia|].
  rewrite <-app_comm_cons, !sum_cons, IH. lia.
Qed.

Lemma sum_singleton c : sum [c] = c.
Proof. unfold sum. simpl. lia. Qed.

(** [get_total] follows the cards: a draw adds the value of the card taken
    from the end of the deck, a successful discard subtracts the value of
    the card, and a successful replace subtracts the card and adds the one
    drawn. *)
Theorem get_total_accounting (self : Player) (card : Z) (deck : list Z) :
  (∀ new deck', deck = deck' ++ [new] →
     ∃ self', draw_card self deck = Ok (self', deck') ∧
              get_total self' = get_total self + new) ∧
  (card ∈ self.(cards) → (1 < length self.(cards))%nat →
     ∃ self', discard_card self card = Ok (true, self') ∧
              get_total self' = get_total self - card) ∧
  (∀ new deck', card ∈ self.(cards) → deck = deck' ++ [new] →
     ∃ self', replace_card self card deck = Ok (true, self', deck') ∧
              get_total self' = get_total self - card + new).
Proof.
  unfold get_total. split_and!.
  - intros new deck' ->. eexists. rewrite draw_card_snoc. split; [done|].
    simpl. rewrite sum_app, sum_singleton. lia.
  - intros Hin Hlen. unfold discard_card, py_in.
    rewrite bool_decide_eq_false_2 by lia.
    rewrite (bool_decide_eq_true_2 _ Hin).
    destruct (list_remove_elem_of _ _ Hin) as (l1 & l2 & Hc & _ & ->).
    eexists. split; [done|]. simpl.
    rewrite Hc, !sum_app, sum_cons. lia.
  - intros new deck' Hin ->. unfold replace_card, py_in.
    rewrite (bool_decide_eq_true_2 _ Hin).
    rewrite bool_decide_eq_true_2 by (by destruct deck').
    destruct (list_remove_elem_of _ _ Hin) as (l1 & l2 & Hc & _ & ->).
    simpl. rewrite draw_card_snoc. simpl. eexists. split; [done|]. simpl.
    rewrite Hc, !sum_app, sum_singleton, sum_cons. lia.
Qed.

(** ** Dealing *)

(** [n] draws in a row from a deck that has the cards for them. *)
Lemma draw_cards_enough n p d :
  (n ≤ length d)%nat →
  ∃ p' d',
    draw_cards n p d = (None, p', d') ∧
    p'.(user) = p.(user) ∧
    length p'.(cards) = (length p.(cards) + n)%nat ∧
    length d' = (length d - n)%nat ∧
    p'.(cards) ++ d' ≡ₚ p.(cards) ++ d.
Proof.
  revert p d. induction n as [|n IH]; intros p d Hn; simpl.
  - exists p, d. split_and!; try done; lia.
  - destruct (draw_card_cases p d) as [[-> _]|(d1 & c & -> & ->)];
      [simpl in Hn; lia|].
    rewrite length_app in Hn. simpl in Hn.
    destruct (IH (mkPlayer p.(user) (p.(cards) ++ [c])) d1)
      as (p' & d' & -> & Hu & Hl & Hd & Hperm); [lia|].
    exists p', d'. simpl in *. rewrite length_app in Hl. simpl in Hl.
    split_and!; [done..|lia|rewrite length_app; simpl; lia|].
    rewrite Hperm, <-(assoc_L (++)). f_equiv. apply Permutation_app_comm.
Qed.

(** [n] draws in a row from a deck that runs out on the way. *)
Lemma draw_cards_short n p d :
  (length d < n)%nat →
  ∃ p', draw_cards n p d = (Some ValueError, p', []) ∧
        p'.(cards) ≡ₚ p.(cards) ++ d.
Proof.
  revert p d. induction n as [|n IH]; intros p d Hn; simpl; [lia|].
  destruct (draw_card_cases p d) as [[-> ->]|(d1 & c & -> & ->)].
  - exists p. by rewrite app_nil_r.
  - rewrite length_app in Hn. simpl in Hn.
    destruct (IH (mkPlayer p.(user) (p.(cards) ++ [c])) d1)
      as (p' & -> & Hperm); [lia|].
    exists p'. split; [done|]. rewrite Hperm. simpl.
    rewrite <-(assoc_L (++)). f_equiv. apply Permutation_app_comm.
Qed.

Lemma cards_held_cons p ps : cards_held (p :: ps) = p.(cards) ++ cards_held ps.
Proof. done. Qed.

Lemma deal_enough n ps d :
  (n * length ps ≤ length d)%nat →
  ∃ ps' d',
    deal n ps d = (None, ps', d') ∧
    Forall2 (λ p p', p'.(user) = p.(user) ∧
                     length p'.(cards) = (length p.(cards) + n)%nat) ps ps' ∧
    length d' = (length d - n * length ps)%nat ∧
    cards_held ps' ++ d' ≡ₚ cards_held ps ++ d.
Proof.
  revert d. induction ps as [|p ps IH]; intros d Hn.
  - exists [], d. simpl. split; [done|]. split; [constructor|].
    split; [lia|done].
  - cbn [length] in Hn. cbn [deal].
    destruct (draw_cards_enough n p d)
      as (p' & d1 & -> & Hu & Hl & Hd1 & Hperm1); [lia|].
    destruct (IH d1) as (ps' & d' & -> & Hall & Hd' & Hperm); [nia|].
    exists (p' :: ps'), d'. split; [done|]. split; [|split].
    + constructor; [by split|done].
    + cbn [length]. nia.
    + rewrite !cards_held_cons, <-!(assoc_L (++)), Hperm.
      rewrite (Permutation_app_comm (cards_held ps) d1).
      rewrite (assoc_L (++)), Hperm1, <-(assoc_L (++)).
      f_equiv. apply Permutation_app_comm.
Qed.

Lemma deal_short n ps d :
  (length d < n * length ps)%nat →
  ∃ ps', deal n ps d = (Some ValueError, ps', []) ∧
         cards_held ps' ≡ₚ cards_held ps ++ d.
Proof.
  revert d. induction ps as [|p ps IH]; intros d Hn;
    cbn [length] in Hn; [lia|]. cbn [deal].
  destruct (decide (n ≤ length d)%nat) as [Hle|Hgt].
  - destruct (draw_cards_enough n p d)
      as (p' & d1 & -> & Hu & Hl & Hd1 & Hperm1); [lia|].
    destruct (IH d1) as (ps' & -> & Hperm); [nia|].
    exists (p' :: ps'). split; [done|].
    rewrite !cards_held_cons, Hperm.
    rewrite (Permutation_app_comm (cards_held ps) d1).
    rewrite (assoc_L (++)), Hperm1, <-!(assoc_L (++)).
    f_equiv. apply Permutation_app_comm.
  - destruct (draw_cards_short n p d) as (p' & -> & Hperm); [lia|].
    exists (p' :: ps). split; [done|].
    rewrite !cards_held_cons, Hperm.
    rewrite <-!(assoc_L (++)). f_equiv. apply Permutation_app_comm.
Qed.

(** The view that [start_game_button] leaves when it is pressed in a
    lobby by one of its users, in terms of the deal. *)
Lemma start_game_button_lobby R nc us u rd rp :
  NoDup us → (length us ≤ 8)%nat → u ∈ us →
  let d := deal (Z.to_nat nc) (shuffle rp (Player_init <$> us))
             (generate_deck rd) in
  start_game_button u rd rp (lobby R nc us) =
    match d.1.1 with
    | Some e => (Raised e, mkGame d.1.2 true (-1) d.2 R nc false 0 0 false)
    | None =>
        (TurnStarts,
         mkGame d.1.2 true 0 d.2 R nc (bool_decide (length us = 1%nat))
           R 1 false)
    end.
Proof.
  intros Hnd Hlen Hu. rewrite lobby_players by done.
  unfold start_game_button. simpl. rewrite user_ids_init.
  rewrite (bool_decide_eq_true_2 _ Hu). simpl.
  assert (length us ≠ 0%nat) as Hne.
  { destruct us; [by apply elem_of_nil in Hu|done]. }
  rewrite bool_decide_eq_true_2 by (rewrite length_fmap; lia).
  pose proof (deal_length (Z.to_nat nc)
                (shuffle rp (Player_init <$> us)) (generate_deck rd)) as Hdl.
  rewrite shuffle_length, length_fmap in Hdl.
  destruct (deal _ _ _) as [[[e|] ps] d]; simpl in *; [done|].
  unfold proceed_to_next_player. simpl.
  rewrite Hdl. rewrite bool_decide_eq_false_2 by done.
  rewrite Z.mod_0_l by lia. simpl. rewrite Hdl.
  by case_bool_decide.
Qed.

Lemma cards_held_empty ps :
  Forall (λ p, p.(cards) = []) ps → cards_held ps = [].
Proof.
  induction 1 as [|p ps Hp _ IH]; [done|].
  by rewrite cards_held_cons, Hp, IH.
Qed.

Lemma generate_deck_perm rd : generate_deck rd ≡ₚ unshuffled_deck.
Proof. unfold generate_deck. exact (shuffle_perm rd unshuffled_deck). Qed.

Lemma generate_deck_length rd : length (generate_deck rd) = 62%nat.
Proof. unfold generate_deck. by rewrite shuffle_length. Qed.

(** When the deck has the cards for it, starting the game from a lobby
    announces the first turn with every player holding [num_cards] cards
    (none for a negative number), the rest of the 62 cards in the deck, and
    hands and deck together a rearrangement of the unshuffled deck. *)
Theorem start_game_deals (R nc : Z) (us : list user_handle) (u : user_handle)
    (rd rp : list nat) :
  NoDup us → (length us ≤ 8)%nat → u ∈ us →
  (Z.to_nat nc * length us ≤ 62)%nat →
  let r := start_game_button u rd rp (lobby R nc us) in
  r.1 = TurnStarts ∧
  r.2.(game_started) = true ∧
  user_ids r.2.(players) ≡ₚ us ∧
  Forall (λ p, length p.(cards) = Z.to_nat nc) r.2.(players) ∧
  length r.2.(deck) = (62 - Z.to_nat nc * length us)%nat ∧
  cards_in_game r.2 ≡ₚ unshuffled_deck.
Proof.
  intros Hnd Hlen Hu Hfit. rewrite start_game_button_lobby by done. cbv zeta.
  pose proof (deal_user_ids (Z.to_nat nc)
                (shuffle rp (Player_init <$> us)) (generate_deck rd)) as Hus.
  destruct (deal_enough (Z.to_nat nc) (shuffle rp (Player_init <$> us))
              (generate_deck rd))
    as (ps & d & Hdeal & Hall & Hd & Hperm).
  { by rewrite shuffle_length, length_fmap, generate_deck_length. }
  rewrite Hdeal in Hus |- *.
  cbn [fst snd players deck game_started] in Hus |- *.
  rewrite shuffle_length, length_fmap, generate_deck_length in Hd.
  split_and!; [done..| | |done|].
  - rewrite Hus. unfold user_ids. by rewrite shuffle_perm, user_ids_init.
  - assert (Forall (λ p, p.(cards) = []) (shuffle rp (Player_init <$> us)))
      as Hempty.
    { rewrite shuffle_perm. apply Forall_fmap, Forall_true. done. }
    clear -Hall Hempty. induction Hall as [|p p' qs qs' [_ Hl] _ IH];
      [constructor|].
    apply Forall_cons in Hempty as [Hp Hempty]. rewrite Hp in Hl.
    constructor; [done|auto].
  - unfold cards_in_game. cbn [fst snd players deck]. rewrite Hperm.
    rewrite cards_held_empty; [apply generate_deck_perm|].
    rewrite shuffle_perm. apply Forall_fmap, Forall_true. done.
Qed.

Lemma start_game_deals_witness :
  let r := start_game_button (Human 2) [5; 1]%nat [2]%nat
             (lobby 3 2 [Human 1; Human 2; Human 3]) in
  r.1 = TurnStarts ∧ length r.2.(deck) = 56%nat.
Proof.
  intros r.
  destruct (start_game_deals 3 2 [Human 1; Human 2; Human 3] (Human 2)
              [5; 1]%nat [2]%nat) as (H1 & _ & _ & _ & H2 & _).
  - apply (bool_decide_unpack _). vm_compute. reflexivity.
  - simpl. lia.
  - apply (bool_decide_unpack _). vm_compute. reflexivity.
  - simpl. lia.
  - split; [exact H1|exact H2].
Defined.

(** When the players need more cards than the deck has, dealing raises
    [ValueError] after [game_started] was set: the deck is empty, and the
    view refuses every later press of the join, leave and start buttons. *)
Theorem start_game_deck_too_small (R nc : Z) (us : list user_handle)
    (u : user_handle) (rd rp : list nat) :
  NoDup us → (length us ≤ 8)%nat → u ∈ us →
  (62 < Z.to_nat nc * length us)%nat →
  let r := start_game_button u rd rp (lobby R nc us) in
  r.1 = Raised ValueError ∧
  r.2.(game_started) = true ∧
  r.2.(deck) = [] ∧
  (∀ u', play_game_button u' r.2 = (Refused, r.2)) ∧
  (∀ u', leave_game_button u' r.2 = (Refused, r.2)) ∧
  (∀ u' rd' rp', start_game_button u' rd' rp' r.2 = (Refused, r.2)).
Proof.
  intros Hnd Hlen Hu Hfit. rewrite start_game_button_lobby by done. cbv zeta.
  destruct (deal_short (Z.to_nat nc) (shuffle rp (Player_init <$> us))
              (generate_deck rd)) as (ps & Hdeal & _).
  { by rewrite shuffle_length, length_fmap, generate_deck_length. }
  rewrite Hdeal. cbn [fst snd]. split_and!; done.
Qed.

Lemma start_game_deck_too_small_witness :
  let r := start_game_button (Human 0) [] []
             (lobby 3 8 (Human <$> seq 0 8)) in
  r.1 = Raised ValueError ∧ r.2.(game_started) = true.
Proof.
  intros r.
  destruct (start_game_deck_too_small 3 8 (Human <$> seq 0 8) (Human 0) [] [])
    as (H1 & H2 & _).
  - apply (bool_decide_unpack _). vm_compute. reflexivity.
  - simpl. lia.
  - apply (bool_decide_unpack _). vm_compute. reflexivity.
  - simpl. lia.
  - split; [exact H1|exact H2].
Defined.

(** ** The lobby *)

Lemma in_lobby_init R nc : in_lobby (CorelliaGameView_init R nc).
Proof.
  unfold in_lobby. simpl. split_and!; [done|constructor|lia|constructor|done].
Qed.

Lemma press_in_lobby a g : in_lobby g → in_lobby (press a g).2.
Proof.
  intros (Hs & Hnd & Hlen & Hc & Hi). destruct a as [u|u]; simpl.
  - unfold play_game_button. rewrite Hs.
    case_bool_decide as Hu; [done|].
    case_bool_decide as Hfull; [done|].
    unfold in_lobby. simpl. unfold user_ids in *. rewrite fmap_app. simpl.
    split_and!; [done| |rewrite length_app; simpl; lia| |done].
    + apply NoDup_app. split_and!; [done| |apply NoDup_singleton].
      intros x Hx ->%list_elem_of_singleton. done.
    + apply Forall_app. split; [done|]. by constructor.
  - unfold leave_game_button. rewrite Hs.
    destruct (list_find _ _) as [[i p]|] eqn:Hfind; [|done].
    unfold update_lobby_embed. simpl.
    case_bool_decide.
    + unfold in_lobby. simpl.
      split_and!; [done|constructor|lia|constructor|done].
    + unfold in_lobby. simpl. unfold user_ids in *.
      rewrite list_fmap_delete.
      split_and!; [done| | |by apply Forall_delete|done].
      * apply (sublist_NoDup (delete i (user <$> g.(players)))
                 (user <$> g.(players))); [done|apply sublist_delete].
      * pose proof (submseteq_length _ _ (submseteq_delete g.(players) i)). lia.
Qed.

(** Whatever the users press in the lobby, starting from a new view: the
    game is not started, the players are distinct users, at most eight,
    and they hold no cards. *)
Theorem lobby_invariant (R nc : Z) (presses : list lobby_action) :
  let g := foldl (λ g a, (press a g).2) (CorelliaGameView_init R nc) presses in
  g.(game_started) = false ∧
  NoDup (user_ids g.(players)) ∧
  (length g.(players) ≤ 8)%nat ∧
  Forall (λ p, p.(cards) = []) g.(players) ∧
  g.(current_player_index) = -1.
Proof.
  cbv zeta. generalize (in_lobby_init R nc).
  generalize (CorelliaGameView_init R nc).
  induction presses as [|a presses IH]; intros g Hg; [done|].
  simpl. apply IH. by apply press_in_lobby.
Qed.

(** A user who joins and then leaves puts the lobby back as it was. *)
Theorem join_then_leave (u : user_handle) (g : CorelliaGameView) :
  in_lobby g → u ∉ user_ids g.(players) → (length g.(players) < 8)%nat →
  (play_game_button u g).1 = LobbyUpdated ∧
  leave_game_button u (play_game_button u g).2 = (LobbyUpdated, g).
Proof.
  intros (Hs & Hnd & Hlen & Hc & Hi) Hu Hfree.
  unfold play_game_button. rewrite Hs.
  rewrite bool_decide_eq_false_2 by done.
  rewrite bool_decide_eq_false_2 by lia.
  split; [done|]. unfold leave_game_button. simpl. rewrite Hs.
  assert (list_find (λ p, p.(user) = u) (g.(players) ++ [Player_init u])
          = Some (length g.(players), Player_init u)) as ->.
  { apply list_find_Some. split_and!.
    - by rewrite lookup_app_r, Nat.sub_diag by lia.
    - done.
    - intros j p Hj Hlt Hp. rewrite lookup_app_l in Hj by done.
      apply Hu. unfold user_ids. apply list_elem_of_fmap. exists p.
      split; [done|]. by eapply list_elem_of_lookup_2. }
  f_equal. unfold update_lobby_embed. simpl.
  replace (delete (length g.(players)) (g.(players) ++ [Player_init u]))
    with g.(players) by (by rewrite delete_middle, app_nil_r).
  destruct g as [ps started idx dk rs nc solo total rc first].
  simpl in *. subst. case_bool_decide as Hps; [|done].
  by destruct ps.
Qed.

Lemma join_then_leave_witness :
  let g := lobby 3 2 [Human 1; Human 2] in
  leave_game_button (Human 3) (play_game_button (Human 3) g).2
  = (LobbyUpdated, g).
Proof.
  intros g. apply (join_then_leave (Human 3) g).
  - unfold in_lobby. split_and!.
    + reflexivity.
    + apply (bool_decide_unpack _). vm_compute. reflexivity.
    + simpl. lia.
    + apply (bool_decide_unpack _). vm_compute. reflexivity.
    + reflexivity.
  - apply (bool_decide_unpack _). vm_compute. reflexivity.
  - simpl. lia.
Defined.

(** ** The cards in the game *)

(** What [end_game] does to the players and the deck: nothing, or in a
    solo game it draws once and fails on the second draw, or it draws two
    cards for the added player. *)
Lemma end_game_cases g :
  (end_game g).2 = g ∨
  (g.(solo_game) = true ∧ ∃ c, g.(deck) = [c] ∧
     end_game g = (Raised ValueError, set_deck [] g)) ∨
  (g.(solo_game) = true ∧ ∃ d c2 c1,
     g.(deck) = d ++ [c2; c1] ∧
     (end_game g).2
     = set_players (g.(players) ++ [mkPlayer AIUser [c1; c2]]) (set_deck d g)).
Proof.
  unfold end_game. destruct g.(solo_game) eqn:Hsolo.
  - destruct (list_snoc_cases g.(deck)) as [Hd|(d1 & c1 & Hd)]; rewrite Hd.
    { by left. }
    rewrite draw_card_snoc. simpl.
    destruct (list_snoc_cases d1) as [->|(d & c2 & ->)].
    { right. left. split; [done|]. by exists c1. }
    rewrite draw_card_snoc. simpl.
    right. right. split; [done|]. exists d, c2, c1.
    split; [by rewrite <-(assoc_L (++))|].
    case_bool_decide; [done|].
    destruct (evaluate_all _) as [evs|e]; [|done].
    by destruct (sort_by_key evs).
  - left. case_bool_decide; [done|].
    destruct (evaluate_all _) as [evs|e]; [|done].
    by destruct (sort_by_key evs).
Qed.

(** [proceed_to_next_player] touches players and deck only through
    [end_game]. *)
Lemma proceed_to_next_player_cases g :
  ((proceed_to_next_player g).2.(players) = g.(players) ∧
   (proceed_to_next_player g).2.(deck) = g.(deck)) ∨
  (∃ g1, g1.(players) = g.(players) ∧ g1.(deck) = g.(deck) ∧
         g1.(solo_game) = g.(solo_game) ∧
         proceed_to_next_player g = end_game g1).
Proof.
  unfold proceed_to_next_player. case_bool_decide; [by left|].
  destruct g as [ps started idx dk rs nc solo total rc first]. simpl.
  set (idx' := (idx + 1) `mod` Z.of_nat (length ps)).
  destruct (bool_decide (idx' = 0)), first; simpl; try by left.
  destruct (bool_decide (rc + 1 > total)); simpl; [|by left].
  right. by exists (mkGame ps started idx' dk rs nc solo total (rc + 1) false).
Qed.

Lemma cards_held_app ps qs : cards_held (ps ++ qs) = cards_held ps ++ cards_held qs.
Proof. unfold cards_held. apply bind_app. Qed.

Lemma cards_held_insert_sub ps i p p' :
  ps !! i = Some p → p'.(cards) ⊆+ p.(cards) →
  cards_held (<[i:=p']> ps) ⊆+ cards_held ps.
Proof.
  intros Hi Hsub.
  rewrite <-(take_drop_middle ps i p) at 2 by done.
  rewrite insert_take_drop by (by eapply lookup_lt_Some).
  rewrite !cards_held_app, !cards_held_cons.
  apply submseteq_skips_l. by apply submseteq_skips_r.
Qed.

Lemma cards_held_delete ps i : cards_held (delete i ps) ⊆+ cards_held ps.
Proof.
  destruct (ps !! i) as [p|] eqn:Hi.
  - rewrite <-(take_drop_middle ps i p) at 2 by done.
    rewrite delete_take_drop, !cards_held_app, cards_held_cons.
    apply submseteq_skips_l, submseteq_inserts_l. done.
  - rewrite delete_take_drop.
    apply lookup_ge_None in Hi.
    rewrite take_ge, drop_ge, app_nil_r by lia. done.
Qed.

(** [end_game] adds no card to the game and takes cards only from the end
    of the deck. *)
Lemma end_game_cards g :
  cards_in_game (end_game g).2 ⊆+ cards_in_game g ∧
  (end_game g).2.(deck) `prefix_of` g.(deck).
Proof.
  unfold cards_in_game.
  destruct (end_game_cases g)
    as [->|[(_ & c & Hd & ->)|(_ & d & c2 & c1 & Hd & ->)]]; simpl.
  - done.
  - rewrite Hd. split; [|apply prefix_nil].
    rewrite app_nil_r. by apply submseteq_inserts_r.
  - rewrite Hd, cards_held_app. split; [|by apply prefix_app_r].
    apply Permutation_submseteq.
    rewrite <-!(assoc_L (++)). f_equiv.
    rewrite cards_held_cons. simpl.
    rewrite (Permutation_app_comm d), (perm_swap c1 c2). done.
Qed.

Lemma proceed_to_next_player_cards g :
  cards_in_game (proceed_to_next_player g).2 ⊆+ cards_in_game g ∧
  (proceed_to_next_player g).2.(deck) `prefix_of` g.(deck).
Proof.
  destruct (proceed_to_next_player_cases g)
    as [[Hp Hd]|(g1 & Hp & Hd & _ & ->)].
  - unfold cards_in_game. by rewrite Hp, Hd.
  - pose proof (end_game_cards g1) as Hc.
    unfold cards_in_game in *. by rewrite Hp, Hd in Hc.
Qed.

Lemma no_new_cards_refl g : no_new_cards g g.
Proof. by split. Qed.

Lemma no_new_cards_trans g1 g2 g3 :
  no_new_cards g1 g2 → no_new_cards g2 g3 → no_new_cards g1 g3.
Proof. intros [? ?] [? ?]. split; by etrans. Qed.

Lemma no_new_cards_proceed g : no_new_cards g (proceed_to_next_player g).2.
Proof. apply proceed_to_next_player_cards. Qed.

(** The hand of the player in turn loses cards. *)
Lemma no_new_cards_shrink g p cards' :
  current_player g = Some p → cards' ⊆+ p.(cards) →
  no_new_cards g (set_current_player (mkPlayer p.(user) cards') g).
Proof.
  intros [_ Hp]%current_player_Some Hsub. split; [|done].
  unfold cards_in_game. simpl. apply submseteq_skips_r.
  by eapply cards_held_insert_sub.
Qed.

(** The player in turn draws the card at the end of the deck. *)
Lemma no_new_cards_draw g p deck' c :
  current_player g = Some p → g.(deck) = deck' ++ [c] →
  no_new_cards g
    (set_deck deck' (set_current_player (mkPlayer p.(user) (p.(cards) ++ [c])) g)).
Proof.
  intros [_ Hp]%current_player_Some Hd. split.
  - unfold cards_in_game. simpl. rewrite Hd.
    rewrite (cards_held_insert _ _ p _ c) by done.
    apply Permutation_submseteq. rewrite (assoc_L (++)).
    by rewrite <-Permutation_cons_append.
  - simpl. rewrite Hd. by apply prefix_app_r.
Qed.

(** No action brings a card into the game, and the deck changes only by
    losing cards from its end. *)
Lemma play_no_new_cards a g : no_new_cards g (play a g).2.
Proof.
  destruct a; simpl.
  - (* Draw *)
    unfold draw_card_button.
    destruct (current_player g) as [p|] eqn:Hp; [|apply no_new_cards_refl].
    destruct (draw_card_cases p g.(deck))
      as [[_ ->]|(deck' & c & Hd & ->)]; [apply no_new_cards_refl|].
    eapply no_new_cards_trans; [by apply no_new_cards_draw|].
    apply no_new_cards_proceed.
  - (* Discard *)
    unfold discard_select.
    destruct (current_player g) as [p|] eqn:Hp; [|apply no_new_cards_refl].
    case_bool_decide; [apply no_new_cards_refl|].
    unfold list_pop_at.
    destruct (p.(cards) !! card_index); [|apply no_new_cards_refl].
    eapply no_new_cards_trans;
      [apply (no_new_cards_shrink g p), submseteq_delete; done|].
    apply no_new_cards_proceed.
  - (* Replace *)
    unfold replace_select.
    destruct (current_player g) as [p|] eqn:Hp; [|apply no_new_cards_refl].
    unfold list_pop_at.
    destruct (p.(cards) !! card_index); [|apply no_new_cards_refl].
    set (p1 := mkPlayer p.(user) (delete card_index p.(cards))).
    assert (no_new_cards g (set_current_player p1 g)) as H1.
    { apply (no_new_cards_shrink g p), submseteq_delete; done. }
    destruct (draw_card_cases p1 (set_current_player p1 g).(deck))
      as [[_ ->]|(deck' & c & Hd & ->)]; [done|].
    eapply no_new_cards_trans; [exact H1|].
    eapply no_new_cards_trans; [|apply no_new_cards_proceed].
    apply (no_new_cards_draw _ p1); [|done].
    by eapply current_player_set_current_player.
  - (* Stand *)
    unfold stand_button.
    destruct (current_player g); [|apply no_new_cards_refl].
    apply no_new_cards_proceed.
  - (* Junk *)
    unfold junk_button.
    destruct (current_player g); [|apply no_new_cards_refl].
    set (g1 := set_players _ g).
    assert (no_new_cards g g1) as H1.
    { split; [|done]. unfold cards_in_game. simpl.
      apply submseteq_skips_r, cards_held_delete. }
    eapply no_new_cards_trans; [exact H1|].
    case_bool_decide; [apply end_game_cards|apply no_new_cards_proceed].
  - (* Timeout *)
    unfold on_timeout.
    destruct (current_player g); [|apply no_new_cards_refl].
    apply no_new_cards_proceed.
Qed.

Lemma run_no_new_cards acts g : no_new_cards g (run acts g).2.
Proof.
  revert g. induction acts as [|a acts IH]; intros g; simpl.
  - apply no_new_cards_refl.
  - pose proof (play_no_new_cards a g) as Ha.
    destruct (play a g) as [o g1]. simpl in Ha.
    destruct (is_game_over o); [done|].
    specialize (IH g1). destruct (run acts g1) as [os g2]. simpl in *.
    by eapply no_new_cards_trans.
Qed.

Lemma occurrences_submseteq v l1 l2 :
  l1 ⊆+ l2 → (occurrences v l1 ≤ occurrences v l2)%nat.
Proof.
  intros (k & Hk)%submseteq_Permutation. rewrite Hk.
  unfold occurrences. rewrite filter_app, length_app. lia.
Qed.

(** The cards of a game just started, or stuck in dealing, are the
    unshuffled deck in some order. *)
Lemma start_game_cards R nc us u rd rp :
  NoDup us → (length us ≤ 8)%nat → u ∈ us →
  cards_in_game (start_game_button u rd rp (lobby R nc us)).2
  ≡ₚ unshuffled_deck.
Proof.
  intros Hnd Hlen Hu. rewrite start_game_button_lobby by done. cbv zeta.
  assert (cards_held (shuffle rp (Player_init <$> us)) = []) as Hempty.
  { apply cards_held_empty. rewrite shuffle_perm.
    apply Forall_fmap, Forall_true. done. }
  destruct (decide (Z.to_nat nc * length (shuffle rp (Player_init <$> us))
                    ≤ length (generate_deck rd))%nat) as [Hfit|Hfit].
  - destruct (deal_enough _ _ _ Hfit) as (ps & d & -> & _ & _ & Hperm).
    unfold cards_in_game. cbn [fst snd players deck].
    rewrite Hperm, Hempty. apply generate_deck_perm.
  - destruct (deal_short (Z.to_nat nc) (shuffle rp (Player_init <$> us))
                (generate_deck rd)) as (ps & -> & Hperm); [lia|].
    unfold cards_in_game. cbn [fst snd players deck].
    rewrite app_nil_r, Hperm, Hempty. apply generate_deck_perm.
Qed.

Lemma play_all_no_new_cards acts g : no_new_cards g (play_all acts g).2.
Proof.
  revert g. induction acts as [|a acts IH]; intros g; simpl.
  - apply no_new_cards_refl.
  - pose proof (play_no_new_cards a g) as Ha.
    destruct (play a g) as [o g1]. simpl in Ha.
    specialize (IH g1). destruct (play_all acts g1) as [os g2]. simpl in *.
    by eapply no_new_cards_trans.
Qed.

(** In a game started from a lobby, whatever is played, also after an
    exception and after the game-over message, the cards in the hands and
    in the deck are cards of the 62-card deck: no value occurs more often
    than the deck has it. Cards are never duplicated. *)
Theorem cards_never_duplicated (R nc : Z) (us : list user_handle)
    (u : user_handle) (rd rp : list nat) (acts : list action) :
  NoDup us → (length us ≤ 8)%nat → u ∈ us →
  let g := (play_all acts (start_game_button u rd rp (lobby R nc us)).2).2 in
  cards_in_game g ⊆+ unshuffled_deck ∧
  ∀ v, (occurrences v (cards_in_game g) ≤ copies_in_deck v)%nat.
Proof.
  intros Hnd Hlen Hu g.
  assert (cards_in_game g ⊆+ unshuffled_deck) as Hsub.
  { rewrite <-(start_game_cards R nc us u rd rp) by done.
    apply play_all_no_new_cards. }
  split; [done|]. intros v.
  rewrite <-unshuffled_deck_occurrences. by apply occurrences_submseteq.
Qed.

Lemma cards_never_duplicated_witness :
  let g := (play_all [Draw; Replace 0; Junk; Discard 1]
              (start_game_button (Human 1) [7]%nat []
                 (lobby 3 2 [Human 1; Human 2; Human 3])).2).2 in
  (occurrences 0 (cards_in_game g) ≤ copies_in_deck 0)%nat.
Proof.
  intros g.
  apply (cards_never_duplicated 3 2 [Human 1; Human 2; Human 3] (Human 1)
           [7]%nat [] [Draw; Replace 0; Junk; Discard 1]).
  - apply (bool_decide_unpack _). vm_compute. reflexivity.
  - simpl. lia.
  - apply (bool_decide_unpack _). vm_compute. reflexivity.
Defined.

(** Whatever is played, the deck afterwards is an initial part of the deck
    before: it never grows and is never reordered, cards only leave it at
    its end. *)
Theorem deck_only_shrinks (acts : list action) (g : CorelliaGameView) :
  (run acts g).2.(deck) `prefix_of` g.(deck) ∧
  (length (run acts g).2.(deck) ≤ length g.(deck))%nat.
Proof.
  destruct (run_no_new_cards acts g) as [_ Hpre].
  split; [done|]. by apply prefix_length.
Qed.

(** ** Hands keep a card *)

Lemma end_game_hands g : hands_nonempty g → hands_nonempty (end_game g).2.
Proof.
  unfold hands_nonempty. intros Hg.
  destruct (end_game_cases g)
    as [->|[(_ & c & Hd & ->)|(_ & d & c2 & c1 & Hd & ->)]]; simpl; [done..|].
  apply Forall_app. split; [done|]. by repeat constructor.
Qed.

Lemma proceed_to_next_player_hands g :
  hands_nonempty g → hands_nonempty (proceed_to_next_player g).2.
Proof.
  intros Hg. destruct (proceed_to_next_player_cases g)
    as [[Hp _]|(g1 & Hp & _ & _ & ->)].
  - unfold hands_nonempty. by rewrite Hp.
  - apply end_game_hands. unfold hands_nonempty. by rewrite Hp.
Qed.

Lemma replace_select_empty_deck_raises i g :
  g.(deck) = [] → is_raised (replace_select i g).1 = true.
Proof.
  intros Hd. unfold replace_select.
  destruct (current_player g) as [p|]; [|done].
  destruct (list_pop_at i p.(cards)) as [[c cards']|e]; [|done].
  simpl. by rewrite Hd.
Qed.

Lemma play_hands a g :
  hands_nonempty g → (∀ i, a = Replace i → g.(deck) ≠ []) →
  hands_nonempty (play a g).2.
Proof.
  intros Hg Hdeck. destruct a; simpl.
  - (* Draw *)
    unfold draw_card_button.
    destruct (current_player g) as [p|] eqn:Hp; [|done].
    destruct (draw_card_cases p g.(deck))
      as [[_ ->]|(deck' & c & Hd & ->)]; [done|].
    apply proceed_to_next_player_hands. unfold hands_nonempty. simpl.
    apply Forall_insert; [done|]. simpl. by destruct p.(cards).
  - (* Discard *)
    unfold discard_select.
    destruct (current_player g) as [p|] eqn:Hp; [|done].
    case_bool_decide as Hlen; [done|].
    unfold list_pop_at.
    destruct (p.(cards) !! card_index) as [c|] eqn:Hc; [|done].
    apply proceed_to_next_player_hands. unfold hands_nonempty. simpl.
    apply Forall_insert; [done|]. simpl. intros Hnil.
    apply (f_equal length) in Hnil.
    rewrite length_delete in Hnil by eauto. simpl in Hnil. lia.
  - (* Replace *)
    unfold replace_select.
    destruct (current_player g) as [p|] eqn:Hp; [|done].
    unfold list_pop_at.
    destruct (p.(cards) !! card_index) as [c|] eqn:Hc; [|done].
    set (p1 := mkPlayer p.(user) (delete card_index p.(cards))).
    destruct (draw_card_cases p1 (set_current_player p1 g).(deck))
      as [[Hd _]|(deck' & c' & Hd & ->)].
    { by destruct (Hdeck card_index). }
    apply proceed_to_next_player_hands. unfold hands_nonempty. simpl.
    rewrite list_insert_insert_eq.
    apply Forall_insert; [done|]. simpl. by destruct (delete _ _).
  - (* Stand *)
    unfold stand_button. destruct (current_player g); [|done].
    by apply proceed_to_next_player_hands.
  - (* Junk *)
    unfold junk_button. destruct (current_player g); [|done].
    assert (hands_nonempty
              (set_players (delete (Z.to_nat g.(current_player_index))
                              g.(players)) g)) as H1.
    { unfold hands_nonempty. simpl. by apply Forall_delete. }
    case_bool_decide;
      [by apply end_game_hands|by apply proceed_to_next_player_hands].
  - (* Timeout *)
    unfold on_timeout. destruct (current_player g); [|done].
    by apply proceed_to_next_player_hands.
Qed.

(** An action leaves a card in every hand that had one, unless it is the
    replace button pressed while the deck is empty: Draw, Discard, Stand,
    Junk and Timeout always do, and Replace does when the deck has a
    card. *)
Theorem hand_invariant_step (a : action) (g : CorelliaGameView) :
  hands_nonempty g → (∀ i, a = Replace i → g.(deck) ≠ []) →
  hands_nonempty (play a g).2.
Proof. apply play_hands. Qed.

Lemma hand_invariant_step_witness :
  let g := (start_game_button (Human 1) [] []
              (lobby 3 1 [Human 1; Human 2])).2 in
  hands_nonempty (play (Replace 0) g).2.
Proof.
  intros g. apply (hand_invariant_step (Replace 0) g).
  - apply (bool_decide_unpack _). vm_compute. reflexivity.
  - intros i _. vm_compute. discriminate.
Defined.

(** In a game started from a lobby with at least one card dealt to each
    player, every hand has a card after any actions, also after the
    game-over message, as long as none of them raised an exception. *)
Theorem hand_invariant_without_exception (R nc : Z) (us : list user_handle)
    (u : user_handle) (rd rp : list nat) (acts : list action) :
  NoDup us → (length us ≤ 8)%nat → u ∈ us → 1 ≤ nc →
  let start := start_game_button u rd rp (lobby R nc us) in
  let r := play_all acts start.2 in
  start.1 = TurnStarts →
  Forall (λ o, is_raised o = false) r.1 →
  hands_nonempty start.2 ∧ hands_nonempty r.2.
Proof.
  intros Hnd Hlen Hu Hnc start r Hstart Hok.
  assert (hands_nonempty start.2) as H0.
  { unfold start in *. rewrite start_game_button_lobby in Hstart |- * by done.
    cbv zeta in *.
    destruct (decide (Z.to_nat nc * length (shuffle rp (Player_init <$> us))
                      ≤ length (generate_deck rd))%nat) as [Hfit|Hfit].
    - destruct (deal_enough _ _ _ Hfit) as (ps & d & -> & Hall & _ & _).
      unfold hands_nonempty. cbn [fst snd players].
      clear -Hall Hnc. induction Hall as [|p p' qs qs' [_ Hl] _ IH];
        constructor; [|done].
      intros Hnil. rewrite Hnil in Hl. simpl in Hl. lia.
    - destruct (deal_short (Z.to_nat nc) (shuffle rp (Player_init <$> us))
                  (generate_deck rd)) as (ps & Hd & _); [lia|].
      rewrite Hd in Hstart. done. }
  split; [done|]. unfold r in *. clear Hstart. revert H0 Hok.
  generalize start.2. clear.
  induction acts as [|a acts IH]; intros g Hg Hok; [done|].
  simpl in *. pose proof (play_hands a g Hg) as Hstep.
  pose proof (replace_select_empty_deck_raises) as Hraise.
  destruct (play a g) as [o g1] eqn:Hplay. simpl in *.
  specialize (IH g1). destruct (play_all acts g1) as [os g2]. simpl in *.
  apply Forall_cons in Hok as [Ho Hok].
  apply IH; [|done].
  apply Hstep. intros i -> Hd. simpl in Hplay.
  specialize (Hraise i g Hd). rewrite Hplay in Hraise. simpl in Hraise.
  congruence.
Qed.

Lemma hand_invariant_without_exception_witness :
  let start := start_game_button (Human 1) [] []
                 (lobby 3 2 [Human 1; Human 2]) in
  hands_nonempty (play_all [Discard 0; Discard 0; Replace 0] start.2).2.
Proof.
  intros start.
  apply (hand_invariant_without_exception 3 2 [Human 1; Human 2] (Human 1)
           [] [] [Discard 0; Discard 0; Replace 0]).
  - apply (bool_decide_unpack _). vm_compute. reflexivity.
  - simpl. lia.
  - apply (bool_decide_unpack _). vm_compute. reflexivity.
  - lia.
  - vm_compute. reflexivity.
  - apply (bool_decide_unpack _). vm_compute. reflexivity.
Defined.

(** ** Junk in a game of three or more *)

(** When the player in turn junks and at least two players stay, the turn
    index moves on by one in the shortened list. The turn therefore goes
    to the player who sat two seats after the one who left, and the player
    who sat right after loses this turn. A round is counted only when the
    player who left was the last but one; when the last player leaves, the
    index becomes 1 and no round is counted. *)
Theorem junk_skips_the_next_player (g : CorelliaGameView) (p : Player) :
  g.(solo_game) = false → g.(first_turn) = false →
  (3 ≤ length g.(players))%nat → current_player g = Some p →
  let n := Z.of_nat (length g.(players)) in
  let i := g.(current_player_index) in
  let r := junk_button g in
  r.2.(players) = delete (Z.to_nat i) g.(players) ∧
  r.2.(current_player_index) = (i + 1) `mod` (n - 1) ∧
  current_player r.2 = g.(players) !! Z.to_nat ((i + 2) `mod` n) ∧
  r.2.(rounds_completed)
  = g.(rounds_completed) + (if bool_decide (i = n - 2) then 1 else 0).
Proof.
  intros Hsolo Hfirst Hn Hp n i r.
  pose proof (current_player_Some _ _ Hp) as [Hi Hl].
  set (g1 := set_players (delete (Z.to_nat i) g.(players)) g).
  assert (length g1.(players) = (length g.(players) - 1)%nat) as Hlen1.
  { simpl. apply length_delete. eauto. }
  assert (r = proceed_to_next_player g1) as Hr.
  { unfold r, junk_button. rewrite Hp. fold i g1.
    rewrite bool_decide_eq_false_2; [done|]. rewrite Hlen1. lia. }
  assert (g1.(players) ≠ []) as Hne.
  { intros Hnil. rewrite Hnil in Hlen1. simpl in Hlen1. lia. }
  pose proof (proceed_to_next_player_shape g1 Hne Hsolo) as Hshape.
  rewrite <-Hr in Hshape. cbv zeta in Hshape.
  destruct Hshape as (Hps & _ & _ & _ & Hidx & Hrc & _).
  assert (next_index g1 = (i + 1) `mod` (n - 1)) as Hnext.
  { unfold next_index. rewrite Hlen1. simpl. fold i. f_equal. lia. }
  rewrite Hnext in Hidx.
  assert (round_wraps g1 = bool_decide ((i + 1) `mod` (n - 1) = 0)) as Hwrap.
  { unfold round_wraps. rewrite Hnext. simpl. rewrite Hfirst.
    by rewrite andb_true_r. }
  rewrite Hwrap in Hrc. simpl in Hrc.
  assert (0 ≤ i < n) as Hin by (unfold i, n; lia).
  assert ((i + 1 < n - 1 ∧ (i + 1) `mod` (n - 1) = i + 1 ∧
           (i + 2) `mod` n = i + 2) ∨
          (i = n - 2 ∧ (i + 1) `mod` (n - 1) = 0 ∧ (i + 2) `mod` n = 0) ∨
          (i = n - 1 ∧ (i + 1) `mod` (n - 1) = 1 ∧ (i + 2) `mod` n = 1))
    as Hcases.
  { assert (3 ≤ n) by (unfold n; lia).
    destruct (decide (i + 1 < n - 1)) as [?|?]; [left|right].
    - split; [done|]. split; apply Z.mod_small; lia.
    - destruct (decide (i = n - 2)) as [->|?]; [left|right].
      + split; [done|]. split.
        * replace (n - 2 + 1) with (n - 1) by lia. apply Z_mod_same_full.
        * replace (n - 2 + 2) with n by lia. apply Z_mod_same_full.
      + assert (i = n - 1) as -> by lia. split; [done|]. split.
        * replace (n - 1 + 1) with (1 + 1 * (n - 1)) by lia.
          rewrite Z.mod_add by lia. apply Z.mod_small. lia.
        * replace (n - 1 + 2) with (1 + 1 * n) by lia.
          rewrite Z.mod_add by lia. apply Z.mod_small. lia. }
  split; [done|]. split; [done|]. split.
  - unfold current_player. rewrite Hidx, Hps. simpl.
    destruct Hcases as [(H1 & -> & ->)|[(H1 & -> & ->)|(H1 & -> & ->)]].
    + rewrite bool_decide_eq_true_2 by lia.
      rewrite list_lookup_delete_ge by lia. f_equal. lia.
    + rewrite bool_decide_eq_true_2 by lia.
      rewrite list_lookup_delete_lt by lia. done.
    + rewrite bool_decide_eq_true_2 by lia.
      rewrite list_lookup_delete_lt by lia. done.
  - rewrite Hrc.
    destruct Hcases as [(H1 & -> & _)|[(H1 & -> & _)|(H1 & -> & _)]];
      repeat case_bool_decide; lia.
Qed.

Lemma junk_skips_the_next_player_witness :
  let g := (start_game_button (Human 1) [] []
              (lobby 3 2 [Human 1; Human 2; Human 3; Human 4])).2 in
  current_player (junk_button g).2 = g.(players) !! 2%nat.
Proof.
  intros g.
  destruct (junk_skips_the_next_player g
              (default (Player_init AIUser) (current_player g)))
    as (_ & _ & H & _).
  - reflexivity.
  - reflexivity.
  - vm_compute. lia.
  - vm_compute. reflexivity.
  - exact H.
Defined.

(** ** Rounds in general *)

(** A game of [n >= 2] players over [R >= 1] rounds, played without Junk
    and without an exception: at most [n * R] turns are completed, and the
    game-over message is sent exactly when turn [n * R] is completed, so
    that every player has had [R] turns. *)
Theorem game_over_after_all_rounds
    (R nc : Z) (us : list user_handle) (u : user_handle) (rd rp : list nat)
    (acts : list action) (g0 g : CorelliaGameView) (outs : list outcome) :
  NoDup us → (2 ≤ length us ≤ 8)%nat → 1 ≤ R → u ∈ us →
  start_game_button u rd rp (lobby R nc us) = (TurnStarts, g0) →
  Forall (λ a, a ≠ Junk) acts →
  run acts g0 = (outs, g) →
  Forall (λ o, is_raised o = false) outs →
  Z.of_nat (turns_completed outs) ≤ Z.of_nat (length us) * R ∧
  (Exists (λ o, is_game_over o = true) outs ↔
   Z.of_nat (turns_completed outs) = Z.of_nat (length us) * R) ∧
  (¬ Exists (λ o, is_game_over o = true) outs →
   Z.of_nat (turns_completed outs)
   = Z.of_nat (length us) * (g.(rounds_completed) - 1)
     + g.(current_player_index)).
Proof.
  intros Hnd [Hlen2 Hlen8] HR1 Hu Hstart Hacts Hrun Hok.
  pose proof (start_game_from_lobby R nc us u rd rp Hnd Hlen8 Hu) as Hs.
  rewrite Hstart in Hs. simpl in Hs.
  destruct Hs as [[e [=]]|(_ & Hn & HR & Hrc & Hidx & Hfirst & Hsolo)].
  rewrite bool_decide_eq_false_2 in Hsolo by lia.
  assert (in_rounds (length us) R g0) as Hg0.
  { unfold in_rounds. rewrite Hn, HR, Hrc, Hidx, Hfirst, Hsolo.
    split_and!; try done; lia. }
  destruct (run_in_rounds _ _ _ _ _ _ Hg0 Hacts Hrun Hok)
    as (Hle & Hiff & Hlast).
  assert (turns_before g0 = 0) as Hzero.
  { unfold turns_before. rewrite Hrc, Hidx. lia. }
  rewrite Hzero in Hle, Hiff, Hlast.
  split; [lia|]. split.
  - rewrite Hiff. lia.
  - intros Hno. destruct (Hlast Hno) as [(Hn' & _) Hcount].
    unfold turns_before in Hcount. rewrite Hn' in Hcount. lia.
Qed.

Lemma game_over_after_all_rounds_witness :
  let us := [Human 1; Human 2] in
  let g0 := (start_game_button (Human 1) [] [] (lobby 2 3 us)).2 in
  let outs := (run [Draw; Stand; Replace 1; Timeout] g0).1 in
  Z.of_nat (turns_completed outs) = 2 * 2 ∧
  Exists (λ o, is_game_over o = true) outs.
Proof.
  intros us g0 outs.
  destruct (game_over_after_all_rounds 2 3 us (Human 1) [] []
              [Draw; Stand; Replace 1; Timeout] g0
              (run [Draw; Stand; Replace 1; Timeout] g0).2 outs)
    as (_ & Hiff & _).
  - apply (bool_decide_unpack _). vm_compute. reflexivity.
  - simpl. lia.
  - lia.
  - apply (bool_decide_unpack _). vm_compute. reflexivity.
  - vm_compute. reflexivity.
  - apply (bool_decide_unpack _). vm_compute. reflexivity.
  - vm_compute. reflexivity.
  - apply (bool_decide_unpack _). vm_compute. reflexivity.
  - assert (Z.of_nat (turns_completed outs) = 2 * 2) as H4
      by (vm_compute; reflexivity).
    split; [exact H4|]. apply Hiff. exact H4.
Defined.

(** ** Refusals *)

Lemma end_game_not_refused g : (end_game g).1 ≠ Refused.
Proof.
  unfold end_game.
  destruct g.(solo_game);
    repeat (first [case_bool_decide | destruct (draw_card _ _) as [[? ?]|?]
                  | destruct (evaluate_all _) | destruct (sort_by_key _)]);
    done.
Qed.

Lemma proceed_to_next_player_not_refused g :
  (proceed_to_next_player g).1 ≠ Refused.
Proof.
  unfold proceed_to_next_player. case_bool_decide; [done|].
  destruct (_ && _); [|done].
  destruct (bool_decide _); [apply end_game_not_refused|done].
Qed.

(** A press that is answered with a refusal changes nothing: in the lobby,
    at the start, and during a turn. *)
Theorem refusal_changes_nothing (g : CorelliaGameView) :
  (∀ a, (press a g).1 = Refused → (press a g).2 = g) ∧
  (∀ u rd rp, (start_game_button u rd rp g).1 = Refused →
              (start_game_button u rd rp g).2 = g) ∧
  (∀ a, (play a g).1 = Refused → (play a g).2 = g).
Proof.
  split_and!.
  - intros [u|u]; simpl.
    + unfold play_game_button.
      repeat (destruct (_ : bool); [done|]). done.
    + unfold leave_game_button. destruct (game_started g); [done|].
      by destruct (list_find _ _) as [[i p]|].
  - intros u rd rp. unfold start_game_button.
    destruct (game_started g); [done|].
    destruct (negb _); [done|].
    case_bool_decide; [|done].
    destruct (deal _ _ _) as [[[e|] ps] d]; [done|].
    match goal with |- context [proceed_to_next_player ?g1] =>
      pose proof (proceed_to_next_player_not_refused g1) as Hp;
      destruct (proceed_to_next_player g1) as [o g2] end.
    by destruct o.
  - pose proof proceed_to_next_player_not_refused as Hp.
    pose proof end_game_not_refused as He.
    intros [|i|i| | |]; simpl.
    + unfold draw_card_button.
      destruct (current_player g); [|done].
      destruct (draw_card _ _) as [[p' d']|e]; [|done].
      intros Hr. by apply Hp in Hr.
    + unfold discard_select.
      destruct (current_player g); [|done].
      case_bool_decide; [done|].
      destruct (list_pop_at _ _) as [[c cs]|e]; [|done].
      intros Hr. by apply Hp in Hr.
    + unfold replace_select.
      destruct (current_player g); [|done].
      destruct (list_pop_at _ _) as [[c cs]|e]; [|done].
      destruct (draw_card _ _) as [[p' d']|e]; [|done].
      intros Hr. by apply Hp in Hr.
    + unfold stand_button. destruct (current_player g); [|done].
      intros Hr. by apply Hp in Hr.
    + unfold junk_button. destruct (current_player g); [|done].
      case_bool_decide; intros Hr; [by apply He in Hr|by apply Hp in Hr].
    + unfold on_timeout. destruct (current_player g); [|done].
      intros Hr. by apply Hp in Hr.
Qed.

Lemma refusal_changes_nothing_witness :
  let g := (run [Discard 0]
              (start_game_button (Human 1) [] []
                 (lobby 3 2 [Human 1; Human 2])).2).2 in
  (play (Discard 0) (play (Discard 0) g).2).2 = (play (Discard 0) g).2.
Proof.
  intros g.
  apply (proj2 (proj2 (refusal_changes_nothing (play (Discard 0) g).2))
           (Discard 0)).
  vm_compute. reflexivity.
Defined.

(** ** The showdown *)

Lemma evaluate_all_cons p ps :
  evaluate_all (p :: ps)
  = match evaluate_hand p with
    | Ok (k, t, tot) =>
        match evaluate_all ps with
        | Ok evs => Ok ((k, p, t, tot) :: evs)
        | Raise e => Raise e
        end
    | Raise e => Raise e
    end.
Proof.
  unfold evaluate_all. simpl.
  destruct (evaluate_hand p) as [[[k t] tot]|e]; simpl; [|done].
  by destruct (mapM _ ps).
Qed.

Lemma evaluate_all_inv ps evs :
  evaluate_all ps = Ok evs → Forall2 evaluation_of ps evs.
Proof.
  revert evs. induction ps as [|p ps IH]; intros evs.
  - intros [= <-]. constructor.
  - rewrite evaluate_all_cons.
    destruct (evaluate_hand p) as [[[k t] tot]|e] eqn:Hp; [|done].
    destruct (evaluate_all ps) as [evs'|e]; [|done].
    intros [= <-]. constructor; [by split|by apply IH].
Qed.

Lemma evaluate_all_ok ps :
  Forall (λ p, p.(cards) ≠ []) ps → ∃ evs, evaluate_all ps = Ok evs.
Proof.
  induction 1 as [|p ps Hp _ [evs IH]]; [by exists []|].
  destruct (evaluate_hand_ok p Hp) as (k & t & tot & Hev).
  exists ((k, p, t, tot) :: evs).
  by rewrite evaluate_all_cons, Hev, IH.
Qed.

Lemma insert_by_key_perm x l : insert_by_key x l ≡ₚ x :: l.
Proof.
  induction l as [|y l IH]; simpl; [done|].
  destruct (key_ltb _ _); [|done].
  rewrite IH. apply Permutation_swap.
Qed.

Lemma sort_by_key_perm l : sort_by_key l ≡ₚ l.
Proof.
  induction l as [|x l IH]; simpl; [done|].
  by rewrite insert_by_key_perm, IH.
Qed.

Lemma not_beaten_by_trans e1 e2 e3 :
  not_beaten_by e1 e2 → not_beaten_by e2 e3 → not_beaten_by e1 e3.
Proof.
  unfold not_beaten_by. intros H12 H23.
  destruct (key_ltb e3.1.1.1 e1.1.1.1) eqn:H31; [|done].
  destruct (key_ltb_total e1.1.1.1 e2.1.1.1) as [Heq|[Hlt|Hlt]].
  - rewrite Heq in H31. congruence.
  - rewrite (key_ltb_trans _ _ _ H31 Hlt) in H23. done.
  - congruence.
Qed.

Lemma insert_by_key_sorted x l :
  StronglySorted not_beaten_by l →
  StronglySorted not_beaten_by (insert_by_key x l).
Proof.
  induction 1 as [|y l Hl IH Hy]; simpl.
  - repeat constructor.
  - destruct (key_ltb y.1.1.1 x.1.1.1) eqn:Hyx.
    + constructor; [done|].
      rewrite insert_by_key_perm. constructor; [|done].
      by apply key_ltb_asym.
    + constructor; [by constructor|].
      constructor; [done|].
      eapply Forall_impl; [exact Hy|].
      intros z Hz. by apply (not_beaten_by_trans x y z).
Qed.

Lemma sort_by_key_sorted l : StronglySorted not_beaten_by (sort_by_key l).
Proof.
  induction l as [|x l IH]; simpl; [constructor|].
  by apply insert_by_key_sorted.
Qed.

Lemma end_game_final_hands g :
  g.(solo_game) = false → end_game g = (final_hands g.(players), g).
Proof.
  intros Hsolo. unfold end_game, final_hands. rewrite Hsolo.
  case_bool_decide; [done|].
  destruct (evaluate_all _) as [evs|e]; [|done].
  by destruct (sort_by_key evs).
Qed.

Lemma end_game_lando g d c2 c1 :
  g.(solo_game) = true → g.(deck) = d ++ [c2; c1] →
  end_game g
  = (final_hands (g.(players) ++ [mkPlayer AIUser [c1; c2]]),
     set_players (g.(players) ++ [mkPlayer AIUser [c1; c2]]) (set_deck d g)).
Proof.
  intros Hsolo Hd. unfold end_game, final_hands. rewrite Hsolo, Hd.
  replace (d ++ [c2; c1]) with ((d ++ [c2]) ++ [c1])
    by (by rewrite <-(assoc_L (++))).
  rewrite draw_card_snoc. simpl.
  rewrite draw_card_snoc. simpl.
  case_bool_decide; [done|].
  destruct (evaluate_all _) as [evs|e]; [|done].
  by destruct (sort_by_key evs).
Qed.

Lemma end_game_lando_short g :
  g.(solo_game) = true → (length g.(deck) < 2)%nat →
  (end_game g).1 = Raised ValueError ∧
  (end_game g).2.(players) = g.(players).
Proof.
  intros Hsolo Hlen. unfold end_game. rewrite Hsolo.
  destruct (list_snoc_cases g.(deck)) as [Hd|(d1 & c1 & Hd)]; rewrite Hd.
  { done. }
  rewrite draw_card_snoc. simpl.
  destruct (list_snoc_cases d1) as [->|(d & c2 & ->)].
  { done. }
  rewrite Hd, !length_app in Hlen. simpl in Hlen. lia.
Qed.

Lemma final_hands_ok ps :
  ps ≠ [] → Forall (λ p, p.(cards) ≠ []) ps →
  ∃ evs0 e0 evs,
    evaluate_all ps = Ok evs0 ∧ sort_by_key evs0 = e0 :: evs ∧
    final_hands ps
    = GameOver (FinalHands (e0 :: evs)
                  (filter (λ eh : evaluated, eh.1.1.1 = e0.1.1.1)
                     (e0 :: evs))).
Proof.
  intros Hne Hall. destruct (evaluate_all_ok ps Hall) as [evs0 Hevs0].
  pose proof (evaluate_all_inv _ _ Hevs0) as Hf2.
  pose proof (sort_by_key_perm evs0) as Hperm.
  destruct (sort_by_key evs0) as [|e0 evs] eqn:Hsort.
  { apply Permutation_nil_l in Hperm. subst evs0.
    apply Forall2_nil_inv_r in Hf2. done. }
  exists evs0, e0, evs. split_and!; [done..|].
  unfold final_hands. rewrite bool_decide_eq_false_2 by done.
  by rewrite Hevs0, Hsort.
Qed.

Lemma final_hands_inv ps evs winners :
  final_hands ps = GameOver (FinalHands evs winners) →
  ∃ evs0 e0 evs',
    evaluate_all ps = Ok evs0 ∧ evs = sort_by_key evs0 ∧ evs = e0 :: evs' ∧
    winners = filter (λ eh : evaluated, eh.1.1.1 = e0.1.1.1) evs.
Proof.
  unfold final_hands. case_bool_decide; [done|].
  destruct (evaluate_all ps) as [evs0|e]; [|done].
  destruct (sort_by_key evs0) as [|e0 evs'] eqn:Hsort; [done|].
  intros [= <- <-]. by exists evs0, e0, evs'.
Qed.

Lemma winners_spec (e0 : evaluated) evs e :
  StronglySorted not_beaten_by (e0 :: evs) →
  e ∈ filter (λ eh : evaluated, eh.1.1.1 = e0.1.1.1) (e0 :: evs) ↔
  e ∈ e0 :: evs ∧ ∀ e', e' ∈ e0 :: evs → not_beaten_by e e'.
Proof.
  intros Hs. apply StronglySorted_inv in Hs as [_ Hmin].
  assert (∀ e', e' ∈ e0 :: evs → not_beaten_by e0 e') as Hmin'.
  { intros e' [->|Hin]%elem_of_cons.
    - apply key_ltb_irrefl.
    - by apply (proj1 (Forall_forall _ _) Hmin). }
  rewrite list_elem_of_filter. split.
  - intros [Hk Hin]. split; [done|].
    intros e' He'. unfold not_beaten_by. rewrite Hk. by apply Hmin'.
  - intros [Hin Hbest]. split; [|done].
    pose proof (Hmin' e Hin) as H1.
    assert (e0 ∈ e0 :: evs) as Hhere by (apply elem_of_cons; by left).
    pose proof (Hbest e0 Hhere) as H2.
    unfold not_beaten_by in H1, H2.
    destruct (key_ltb_total e.1.1.1 e0.1.1.1) as [?|[?|?]]; [done|congruence..].
Qed.


Lemma end_game_to_final_hands g :
  (∃ e, (end_game g).1 = Raised e) ∨
  ((end_game g).1 = final_hands (end_game g).2.(players) ∧
   (g.(solo_game) = false → (end_game g).2.(players) = g.(players)) ∧
   (g.(solo_game) = true → (end_game g).2.(players) ≠ [])).
Proof.
  destruct g.(solo_game) eqn:Hsolo.
  - destruct (list_snoc_cases g.(deck)) as [Hd|(d1 & c1 & Hd)].
    { left. exists ValueError.
      apply end_game_lando_short; [done|]. rewrite Hd. simpl. lia. }
    destruct (list_snoc_cases d1) as [->|(d & c2 & ->)].
    { left. exists ValueError.
      apply end_game_lando_short; [done|]. rewrite Hd. simpl. lia. }
    right. rewrite (end_game_lando g d c2 c1);
      [|done|by rewrite Hd, <-(assoc_L (++))].
    simpl. split_and!; [done..|]. intros _. by destruct (players g).
  - right. rewrite end_game_final_hands by done. simpl. done.
Qed.

Lemma final_hands_over_or_raised ps :
  is_game_over (final_hands ps) = true ∨ is_raised (final_hands ps) = true.
Proof.
  unfold final_hands. case_bool_decide; [by left|].
  destruct (evaluate_all ps) as [evs|e]; [|by right].
  destruct (sort_by_key evs); [by right|by left].
Qed.

Lemma end_game_over_or_raised g :
  is_game_over (end_game g).1 = true ∨ is_raised (end_game g).1 = true.
Proof.
  destruct (end_game_to_final_hands g) as [[e ->]|[-> _]]; [by right|].
  apply final_hands_over_or_raised.
Qed.

Lemma final_hands_nobody ps : final_hands ps = GameOver NobodyWon → ps = [].
Proof.
  unfold final_hands. case_bool_decide; [done|].
  destruct (evaluate_all ps) as [evs|e]; [|done].
  by destruct (sort_by_key evs).
Qed.

Lemma end_game_nobody g :
  (end_game g).1 = GameOver NobodyWon →
  g.(solo_game) = false ∧ g.(players) = [].
Proof.
  destruct (end_game_to_final_hands g) as [[e ->]|(-> & Hns & Hs)]; [done|].
  intros Hps%final_hands_nobody.
  destruct g.(solo_game); [by destruct Hs|].
  split; [done|]. by rewrite <-Hns.
Qed.

Lemma proceed_to_next_player_enough g :
  enough_players g →
  (proceed_to_next_player g).1 ≠ GameOver NobodyWon ∧
  (is_game_over (proceed_to_next_player g).1 = false →
   is_raised (proceed_to_next_player g).1 = false →
   enough_players (proceed_to_next_player g).2).
Proof.
  intros [Hne Hsolo]. unfold proceed_to_next_player.
  rewrite bool_decide_eq_false_2 by (by destruct g.(players)).
  destruct g as [ps started idx dk rs nc solo total rc first].
  simpl in *.
  set (idx' := (idx + 1) `mod` Z.of_nat (length ps)).
  destruct (bool_decide (idx' = 0)), first; simpl; try done.
  destruct (bool_decide (rc + 1 > total)); simpl; [|done].
  match goal with |- context [end_game ?g1] =>
    pose proof (end_game_nobody g1) as Hnobody;
    destruct (end_game_over_or_raised g1) as [Ho|Ho];
    destruct (end_game g1) as [o g'] end;
    simpl in *.
  - split; [|congruence]. intros Heq. by destruct (Hnobody Heq).
  - split; [|congruence]. intros Heq. by destruct (Hnobody Heq).
Qed.

Lemma play_enough_players a g :
  enough_players g →
  (play a g).1 ≠ GameOver NobodyWon ∧
  (is_game_over (play a g).1 = false → is_raised (play a g).1 = false →
   enough_players (play a g).2).
Proof.
  intros Hg. destruct (decide (a = Junk)) as [->|Ha].
  - simpl. unfold junk_button.
    destruct (current_player g) as [p|] eqn:Hcur; [|done].
    apply current_player_Some in Hcur as [Hidx Hlook].
    set (g1 := set_players _ g).
    assert (S (length g1.(players)) = length g.(players)) as Hlen.
    { simpl. rewrite length_delete by eauto.
      destruct (players g); simpl in *; [lia|lia]. }
    case_bool_decide as Hshort.
    + split.
      * intros [Hs Hnil]%end_game_nobody. destruct Hg as [_ Hg].
        simpl in Hs. specialize (Hg Hs). rewrite Hnil in Hlen.
        simpl in Hlen. lia.
      * intros Hover Hraised.
        destruct (end_game_over_or_raised g1); congruence.
    + apply proceed_to_next_player_enough. split.
      * intros Hnil. rewrite Hnil in Hshort. simpl in Hshort. lia.
      * intros _. lia.
  - destruct (play a g) as [o g'] eqn:Hplay.
    destruct (play_not_junk _ _ _ _ Ha Hplay)
      as [[Hsame Ho]|(g1 & Hsame & Hne & Hp)].
    + simpl. split; [by destruct Ho as [->|[e ->]]|].
      intros _ _. destruct Hg as [Hne Hsolo].
      pose proof (same_turn_state_length _ _ Hsame) as Hlen.
      destruct Hsame as (_ & _ & _ & _ & _ & Hs & _).
      split.
      * intros Hnil. rewrite Hnil in Hlen. by destruct (players g).
      * rewrite Hlen, Hs. done.
    + assert (enough_players g1) as Hg1.
      { split; [done|].
        rewrite (same_turn_state_length _ _ Hsame).
        destruct Hsame as (_ & _ & _ & _ & _ & -> & _). apply Hg. }
      pose proof (proceed_to_next_player_enough g1 Hg1) as Hpr.
      by rewrite Hp in Hpr.
Qed.

Lemma run_enough_players acts g :
  enough_players g →
  Forall (λ o, is_raised o = false) (run acts g).1 →
  Forall (λ o, o ≠ GameOver NobodyWon) (run acts g).1 ∧
  (Forall (λ o, is_game_over o = false) (run acts g).1 →
   enough_players (run acts g).2).
Proof.
  revert g. induction acts as [|a acts IH]; intros g Hg Hok; simpl in *.
  { done. }
  destruct (play_enough_players a g Hg) as [Hno Hnext].
  destruct (play a g) as [o g1]. simpl in *.
  destruct (is_game_over o) eqn:Hover.
  - simpl. split; [by repeat constructor|].
    intros [? _]%Forall_cons. congruence.
  - specialize (IH g1). destruct (run acts g1) as [os g2]. simpl in *.
    apply Forall_cons in Hok as [Ho Hok].
    destruct (IH (Hnext eq_refl Ho) Hok) as [IH1 IH2].
    split; [by constructor|].
    intros [_ ?]%Forall_cons. by apply IH2.
Qed.

Lemma final_hands_spec ps :
  ps ≠ [] → Forall (λ p, p.(cards) ≠ []) ps →
  ∃ evs0 evs winners,
    final_hands ps = GameOver (FinalHands evs winners) ∧
    Forall2 evaluation_of ps evs0 ∧
    evs ≡ₚ evs0 ∧
    StronglySorted not_beaten_by evs ∧
    winners ≠ [] ∧
    (∀ e, e ∈ winners ↔ e ∈ evs ∧ ∀ e', e' ∈ evs → not_beaten_by e e').
Proof.
  intros Hne Hall.
  destruct (final_hands_ok ps Hne Hall) as (evs0 & e0 & evs & H0 & Hsort & ->).
  pose proof (sort_by_key_sorted evs0) as Hsorted. rewrite Hsort in Hsorted.
  exists evs0, (e0 :: evs), (filter (λ eh : evaluated, eh.1.1.1 = e0.1.1.1)
                               (e0 :: evs)).
  split_and!.
  - done.
  - by apply evaluate_all_inv.
  - rewrite <-Hsort. apply sort_by_key_perm.
  - done.
  - rewrite filter_cons_True by done. done.
  - intros e. by apply winners_spec.
Qed.

(** When a game that is not solo comes to its showdown with at least one
    player left and no hand empty, the game-over message is sent and the
    view is unchanged. The message lists every player's evaluation once,
    ordered so that no hand is beaten by a later one, and the winners are
    exactly the listed hands that no listed hand beats; there is always
    one. *)
Theorem showdown_ranks_hands (g : CorelliaGameView) :
  g.(solo_game) = false → g.(players) ≠ [] → hands_nonempty g →
  ∃ evs0 evs winners,
    end_game g = (GameOver (FinalHands evs winners), g) ∧
    Forall2 evaluation_of g.(players) evs0 ∧
    evs ≡ₚ evs0 ∧
    StronglySorted not_beaten_by evs ∧
    winners ≠ [] ∧
    (∀ e, e ∈ winners ↔ e ∈ evs ∧ ∀ e', e' ∈ evs → not_beaten_by e e').
Proof.
  intros Hsolo Hne Hall.
  destruct (final_hands_spec g.(players) Hne Hall)
    as (evs0 & evs & winners & Hfinal & Hrest).
  exists evs0, evs, winners. split; [|done].
  by rewrite end_game_final_hands, Hfinal.
Qed.

Lemma showdown_ranks_hands_witness :
  let g := mkGame [mkPlayer (Human 1) [5; -3]; mkPlayer (Human 2) [4; -4];
                   mkPlayer (Human 3) [-4; 4]]
             true 2 [7; 8] 3 2 false 3 4 false in
  ∃ evs winners,
    end_game g = (GameOver (FinalHands evs winners), g) ∧ length winners = 2%nat.
Proof.
  intros g.
  destruct (showdown_ranks_hands g) as (evs0 & evs & winners & Heq & _).
  - reflexivity.
  - discriminate.
  - apply (bool_decide_unpack _). vm_compute. reflexivity.
  - exists evs, winners. split; [exact Heq|].
    assert ((end_game g).1 = GameOver (FinalHands evs winners)) as Ho
      by (rewrite Heq; reflexivity).
    vm_compute in Ho. injection Ho as <- <-. reflexivity.
Defined.

Lemma evaluate_hand_no_cards p :
  p.(cards) = [] → evaluate_hand p = Raise ValueError.
Proof. destruct p as [u cs]. simpl. intros ->. by vm_compute. Qed.

Lemma evaluate_all_no_cards ps :
  ¬ Forall (λ p, p.(cards) ≠ []) ps → evaluate_all ps = Raise ValueError.
Proof.
  induction ps as [|p ps IH]; intros Hnot.
  - destruct Hnot. constructor.
  - rewrite evaluate_all_cons.
    destruct (decide (p.(cards) = [])) as [Hp|Hp].
    + by rewrite evaluate_hand_no_cards.
    + destruct (evaluate_hand_ok p Hp) as (k & t & tot & ->).
      rewrite IH; [done|]. intros Hall. apply Hnot. by constructor.
Qed.

(** The showdown of a solo game. With fewer than two cards in the deck Lando
    cannot be dealt his hand: the handler is left by a ValueError, no
    player is added and no game-over message is sent. Otherwise Lando
    Calrissian joins with the two top cards of the deck. If then a player
    holds no cards, the evaluation raises ValueError and no message is
    sent. If every player holds a card, the message lists one evaluation
    more than there were players, Lando's among them, and he is a winner
    exactly when no listed hand beats his; if the human player has junked,
    Lando is the only one listed and wins. *)
Theorem lando_joins_solo_showdown (g : CorelliaGameView) :
  g.(solo_game) = true →
  ((length g.(deck) < 2)%nat →
   (end_game g).1 = Raised ValueError ∧
   (end_game g).2.(players) = g.(players)) ∧
  (∀ d c2 c1, g.(deck) = d ++ [c2; c1] →
     let lando := mkPlayer AIUser [c1; c2] in
     (end_game g).2 = set_players (g.(players) ++ [lando]) (set_deck d g) ∧
     (¬ hands_nonempty g → (end_game g).1 = Raised ValueError) ∧
     (hands_nonempty g →
      ∃ evs winners e,
        (end_game g).1 = GameOver (FinalHands evs winners) ∧
        length evs = S (length g.(players)) ∧
        e ∈ evs ∧ evaluation_of lando e ∧
        (e ∈ winners ↔ ∀ e', e' ∈ evs → not_beaten_by e e') ∧
        (g.(players) = [] → evs = [e] ∧ winners = [e]))).
Proof.
  intros Hsolo. split; [by apply end_game_lando_short|].
  intros d c2 c1 Hd lando. subst lando.
  rewrite (end_game_lando g d c2 c1) by done. cbn [fst snd].
  split; [done|]. split.
  - intros Hnot. unfold final_hands.
    rewrite bool_decide_eq_false_2 by (by destruct (players g)).
    rewrite evaluate_all_no_cards; [done|].
    intros [Hall _]%Forall_app. by apply Hnot.
  - intros Hall.
    destruct (final_hands_spec (g.(players) ++ [mkPlayer AIUser [c1; c2]]))
      as (evs0 & evs & winners & Hfinal & Hf2 & Hperm & _ & Hne & Hwin).
    { by destruct (players g). }
    { apply Forall_app. split; [done|]. by repeat constructor. }
    apply Forall2_app_inv_l in Hf2 as (evs1 & evs2 & Hf1 & Hf2 & ->).
    apply Forall2_cons_inv_l in Hf2 as (e & evs3 & He & Hnil & ->).
    apply Forall2_nil_inv_l in Hnil as ->.
    assert (e ∈ evs) as Hin.
    { rewrite Hperm. apply elem_of_app. right.
      by apply list_elem_of_singleton. }
    exists evs, winners, e. split_and!.
    + done.
    + rewrite Hperm, length_app, <-(Forall2_length _ _ _ Hf1). simpl. lia.
    + done.
    + done.
    + rewrite Hwin. by intuition.
    + intros Hps. rewrite Hps in Hf1. apply Forall2_nil_inv_l in Hf1 as ->.
      simpl in Hperm. apply Permutation_singleton_r in Hperm as ->.
      split; [done|].
      pose proof (final_hands_inv _ _ _ Hfinal)
        as (evs0' & e0 & evs' & _ & _ & [= <- <-] & Hfilter).
      rewrite Hfilter. by rewrite filter_cons_True, filter_nil.
Qed.

Lemma lando_joins_solo_showdown_witness :
  let g := mkGame [mkPlayer (Human 1) [5; -3]] true 0 [1; 7; -8] 3 2 true 3 4
             false in
  (end_game g).2
  = set_players [mkPlayer (Human 1) [5; -3]; mkPlayer AIUser [-8; 7]]
      (set_deck [1] g) ∧
  ∃ evs winners e,
    (end_game g).1 = GameOver (FinalHands evs winners) ∧
    e ∈ evs ∧ evaluation_of (mkPlayer AIUser [-8; 7]) e.
Proof.
  intros g.
  destruct (lando_joins_solo_showdown g) as [_ H].
  - reflexivity.
  - destruct (H [1] 7 (-8) eq_refl) as (Hstate & _ & Hmsg).
    split; [exact Hstate|].
    destruct Hmsg as (evs & winners & e & Heq & _ & Hin & He & _).
    + apply (bool_decide_unpack _). vm_compute. reflexivity.
    + exists evs, winners, e. split; [exact Heq|].
      split; [exact Hin|exact He].
Defined.

(** Two listed players who hold the same cards, in whatever order, are
    evaluated alike, and either both are winners or neither is. *)
Theorem same_cards_win_together (g : CorelliaGameView)
    (evs winners : list evaluated) (e1 e2 : evaluated) :
  (end_game g).1 = GameOver (FinalHands evs winners) →
  e1 ∈ evs → e2 ∈ evs →
  e1.1.1.2.(cards) ≡ₚ e2.1.1.2.(cards) →
  e1.1.1.1 = e2.1.1.1 ∧ e1.1.2 = e2.1.2 ∧ e1.2 = e2.2 ∧
  (e1 ∈ winners ↔ e2 ∈ winners).
Proof.
  intros Hend H1 H2 Hcards.
  destruct (end_game_to_final_hands g) as [[e He]|(Hf & _)]; [congruence|].
  rewrite Hend in Hf. symmetry in Hf.
  apply final_hands_inv in Hf as (evs0 & e0 & evs' & Hall & Hsort & _ & ->).
  apply evaluate_all_inv in Hall.
  assert (∀ e, e ∈ evs →
            evaluate_hand e.1.1.2 = Ok (e.1.1.1, e.1.2, e.2)) as Hev.
  { intros e He. rewrite Hsort, sort_by_key_perm in He.
    clear -Hall He. induction Hall as [|p e' ps es [<- Hp] _ IH].
    - by apply elem_of_nil in He.
    - apply elem_of_cons in He as [->|He]; [done|by apply IH]. }
  pose proof (Hev e1 H1) as Hev1. pose proof (Hev e2 H2) as Hev2.
  rewrite (evaluate_hand_cards _ _ Hcards), Hev2 in Hev1.
  injection Hev1 as Hk Ht Htot.
  split_and!; [done..|].
  rewrite !list_elem_of_filter. rewrite Hk. by intuition.
Qed.

Lemma same_cards_win_together_witness :
  let g := mkGame [mkPlayer (Human 1) [5; -3]; mkPlayer (Human 2) [4; -4];
                   mkPlayer (Human 3) [-4; 4]]
             true 2 [7; 8] 3 2 false 3 4 false in
  let e2 : evaluated :=
    ([Int 5; Int 4], mkPlayer (Human 2) [4; -4], SabaccPair, 0) in
  let e3 : evaluated :=
    ([Int 5; Int 4], mkPlayer (Human 3) [-4; 4], SabaccPair, 0) in
  ∃ evs winners,
    (end_game g).1 = GameOver (FinalHands evs winners) ∧
    (e2 ∈ winners ↔ e3 ∈ winners).
Proof.
  intros g e2 e3.
  eexists _, _. split; [vm_compute; reflexivity|].
  refine (proj2 (proj2 (proj2
    (same_cards_win_together g _ _ e2 e3 _ _ _ _)))).
  - vm_compute. reflexivity.
  - apply elem_of_cons. left. reflexivity.
  - apply elem_of_cons. right. apply elem_of_cons. left. reflexivity.
  - simpl. apply perm_swap.
Defined.

(** The message that nobody won needs a game that is not solo and has
    lost all its players. After the first game-over message this happens
    without an exception: the last player left presses Junk. *)
Lemma junk_of_last_player g p :
  g.(solo_game) = false → g.(players) = [p] →
  g.(current_player_index) = 0 →
  junk_button g = (GameOver NobodyWon, set_players [] g).
Proof.
  intros Hsolo Hps Hidx. unfold junk_button, current_player.
  rewrite Hidx, Hps. simpl. unfold end_game. simpl. by rewrite Hsolo.
Qed.

(** From the start of a game out of the lobby up to its first game-over
    message, as long as no handler is left by an exception: the first
    game-over message is never the one that nobody won, and until that
    message there is a player left, at least two in a game that is not
    solo. *)
Theorem nobody_won_never_reported (R nc : Z) (us : list user_handle)
    (u : user_handle) (rd rp : list nat) (acts : list action) :
  NoDup us → (length us ≤ 8)%nat → u ∈ us →
  let start := start_game_button u rd rp (lobby R nc us) in
  let r := run acts start.2 in
  start.1 = TurnStarts →
  Forall (λ o, is_raised o = false) r.1 →
  Forall (λ o, o ≠ GameOver NobodyWon) r.1 ∧
  (Forall (λ o, is_game_over o = false) r.1 → enough_players r.2).
Proof.
  intros Hnd Hlen Hu start r Hstart Hok.
  apply run_enough_players; [|done].
  unfold start in *. rewrite start_game_button_lobby in Hstart |- * by done.
  cbv zeta in *.
  pose proof (deal_length (Z.to_nat nc) (shuffle rp (Player_init <$> us))
                (generate_deck rd)) as Hdl.
  rewrite shuffle_length, length_fmap in Hdl.
  destruct (deal _ _ _) as [[[e|] ps] d]; [done|].
  cbn [fst snd] in *. unfold enough_players. cbn [players solo_game].
  assert (length us ≠ 0%nat) as Hpos.
  { destruct us; [by apply elem_of_nil in Hu|done]. }
  split.
  - intros ->. simpl in Hdl. lia.
  - intros Hsolo%bool_decide_eq_false. lia.
Qed.

Lemma nobody_won_never_reported_witness :
  let us := [Human 1; Human 2; Human 3] in
  let start := start_game_button (Human 1) [] [] (lobby 3 2 us) in
  Forall (λ o, o ≠ GameOver NobodyWon) (run [Junk; Draw; Junk] start.2).1.
Proof.
  intros us start.
  apply (nobody_won_never_reported 3 2 us (Human 1) [] [] [Junk; Draw; Junk]).
  - apply (bool_decide_unpack _). vm_compute. reflexivity.
  - simpl. lia.
  - apply (bool_decide_unpack _). vm_compute. reflexivity.
  - vm_compute. reflexivity.
  - apply (bool_decide_unpack _). vm_compute. reflexivity.
Defined.

(** ** The hands of the other players *)

Lemma end_game_lookup g j p :
  g.(players) !! j = Some p → (end_game g).2.(players) !! j = Some p.
Proof.
  intros Hj.
  destruct (end_game_cases g)
    as [->|[(_ & c & _ & ->)|(_ & d & c2 & c1 & _ & ->)]]; simpl; [done..|].
  by apply lookup_app_l_Some.
Qed.

Lemma proceed_to_next_player_lookup g j p :
  g.(players) !! j = Some p →
  (proceed_to_next_player g).2.(players) !! j = Some p.
Proof.
  intros Hj.
  destruct (proceed_to_next_player_cases g)
    as [[-> _]|(g1 & Hp & _ & _ & ->)]; [done|].
  apply end_game_lookup. by rewrite Hp.
Qed.

(** The player whose turn it is acts through the view that was opened for
    this turn, so that the player of the view is
    [players[current_player_index]]. Such an action changes the hand of
    nobody else: after Draw, Discard, Replace, Stand or a timeout every
    other player sits at the same place with the same cards, and after
    Junk every other player is still in the game with the same cards. *)
Theorem other_hands_untouched (a : action) (g : CorelliaGameView)
    (j : nat) (p : Player) :
  g.(players) !! j = Some p → j ≠ Z.to_nat g.(current_player_index) →
  (a ≠ Junk → (play a g).2.(players) !! j = Some p) ∧
  p ∈ (play a g).2.(players).
Proof.
  intros Hj Hne.
  assert (∀ q, (<[Z.to_nat g.(current_player_index) := q]> g.(players)) !! j
               = Some p) as Hins.
  { intros q. by rewrite list_lookup_insert_ne. }
  assert (a ≠ Junk → (play a g).2.(players) !! j = Some p) as Hother.
  { intros Ha. destruct a as [|i|i| | |]; simpl; [| | | |done|].
    - unfold draw_card_button.
      destruct (current_player g); [|done].
      destruct (draw_card _ _) as [[p' d']|e]; [|done].
      apply proceed_to_next_player_lookup. simpl. apply Hins.
    - unfold discard_select.
      destruct (current_player g); [|done].
      case_bool_decide; [done|].
      destruct (list_pop_at _ _) as [[c cs]|e]; [|done].
      apply proceed_to_next_player_lookup. simpl. apply Hins.
    - unfold replace_select.
      destruct (current_player g); [|done].
      destruct (list_pop_at _ _) as [[c cs]|e]; [|done].
      destruct (draw_card _ _) as [[p' d']|e]; simpl.
      + apply proceed_to_next_player_lookup. simpl.
        rewrite list_lookup_insert_ne by done. apply Hins.
      + apply Hins.
    - unfold stand_button. destruct (current_player g); [|done].
      by apply proceed_to_next_player_lookup.
    - unfold on_timeout. destruct (current_player g); [|done].
      by apply proceed_to_next_player_lookup. }
  split; [done|].
  destruct (decide (a = Junk)) as [->|Ha];
    [|by eapply list_elem_of_lookup_2, Hother].
  simpl. unfold junk_button.
  destruct (current_player g); [|by eapply list_elem_of_lookup_2].
  set (g1 := set_players _ g).
  assert (∃ k, g1.(players) !! k = Some p) as [k Hk].
  { simpl. destruct (decide (j < Z.to_nat g.(current_player_index))%nat).
    - exists j. by rewrite list_lookup_delete_lt.
    - exists (j - 1)%nat. rewrite list_lookup_delete_ge by lia.
      by replace (S (j - 1)) with j by lia. }
  case_bool_decide.
  - eapply list_elem_of_lookup_2, end_game_lookup, Hk.
  - eapply list_elem_of_lookup_2, proceed_to_next_player_lookup, Hk.
Qed.

Lemma other_hands_untouched_witness :
  let g := (start_game_button (Human 1) [] []
              (lobby 3 2 [Human 1; Human 2; Human 3])).2 in
  ∃ p, g.(players) !! 1%nat = Some p ∧
       (play (Replace 0) g).2.(players) !! 1%nat = Some p ∧
       p ∈ (play Junk g).2.(players).
Proof.
  intros g.
  assert (is_Some (g.(players) !! 1%nat)) as [p Hp]
    by (vm_compute; eexists; reflexivity).
  exists p. split; [exact Hp|].
  assert (1%nat ≠ Z.to_nat g.(current_player_index)) as Hne
    by (vm_compute; discriminate).
  split.
  - apply (proj1 (other_hands_untouched (Replace 0) g 1 p Hp Hne)).
    discriminate.
  - apply (proj2 (other_hands_untouched Junk g 1 p Hp Hne)).
Defined.
